(** * The hash-table map of generic-ebpf, sequentially

    A shallow embedding of [sys/dev/ebpf/ebpf_map_hashtable.c]: the
    bucket table, [lookup], [update], [delete], [get_next_key] and the
    size check of [init], each written after the C function of the same
    name, and the properties of the map that follow from them.

    What the C file takes from headers that are not part of the sources
    at hand is a parameter of the development: the hash function
    [ebpf_jenkins_hash], the update flags [EBPF_NOEXIST] and [EBPF_EXIST],
    [ebpf_roundup_pow_of_two], [sizeof(struct hash_elem)] and the width
    of [size_t].  The allocator and the epoch scheduler are external; a
    call of the allocator is modelled by the block it returns (passed in
    by the caller of the model), a call of [ebpf_epoch_call] by the list
    of elements registered so far. *)

From Stdlib Require Import ZArith Lia.
From Stdlib Require Import Strings.Byte.
From stdpp Require Import base numbers option list.

Local Open Scope Z_scope.

(** ** Machine integers and byte buffers *)

Definition UINT32_MAX : Z := 2 ^ 32 - 1.

(** A value stored in a [uint32_t]. *)
Definition u32 (x : Z) : Z := x mod 2 ^ 32.

(** The values of <errno.h> the file returns. *)
Definition ENOENT : Z := 2.
Definition E2BIG : Z := 7.
Definition ENOMEM : Z := 12.
Definition EBUSY : Z := 16.
Definition EEXIST : Z := 17.

#[global] Instance byte_eq_dec : EqDecision byte := Byte.byte_eq_dec.

Definition byte_val (b : byte) : Z := Z.of_N (Byte.to_N b).

(** [memcmp s1 s2 n]: the difference of the first pair of bytes that
    differ among the first [n], 0 when there is none.  The callers pass
    buffers of at least [n] bytes; a buffer that ends early compares as
    smaller, so that the result is 0 exactly when the first [n] bytes
    agree. *)
Fixpoint memcmp (s1 s2 : list byte) (n : nat) {struct n} : Z :=
  match n with
  | O => 0
  | S n' =>
      match s1, s2 with
      | a :: s1', b :: s2' =>
          if decide (a = b) then memcmp s1' s2' n' else byte_val a - byte_val b
      | [], [] => 0
      | [], _ :: _ => -1
      | _ :: _, [] => 1
      end
  end.

(** [memcpy dst src n] fills [dst] with the first [n] bytes of [src]. *)
Definition memcpy (src : list byte) (n : Z) : list byte := take (Z.to_nat n) src.

(** ** The structures *)

(** [struct hash_elem].  The list linkage is the position in the bucket
    list and [ec] has no content of its own; [elem_hash_map] tells whether
    the back reference [hash_map] has been set; the flexible array [key]
    is split in the key bytes and the value bytes that follow them
    ([HASH_ELEM_VALUE]). *)
Record hash_elem : Type := mk_hash_elem {
  elem_hash_map : bool;
  elem_key_size : Z;
  elem_key : list byte;
  elem_value : list byte
}.

(** [struct hash_bucket]: the list [head]; the lock has no sequential
    content. *)
Abbreviation hash_bucket := (list hash_elem).

(** [struct ebpf_map_hashtable].  [epoch_calls] is not a field of the C
    structure: it is the queue of the epoch scheduler, the elements handed
    to [ebpf_epoch_call] whose callback has not run yet. *)
Record ebpf_map_hashtable : Type := mk_hashtable {
  count : Z;
  epoch_call_count : Z;
  elem_size : Z;
  nbuckets : Z;
  buckets : list hash_bucket;
  epoch_calls : list hash_elem
}.

(** The fields of [struct ebpf_map] the file reads and writes. *)
Record ebpf_map : Type := mk_map {
  key_size : Z;
  value_size : Z;
  max_entries : Z;
  percpu : bool;
  data : ebpf_map_hashtable
}.

#[global] Instance hash_elem_eq_dec : EqDecision hash_elem.
Proof. solve_decision. Defined.

#[global] Instance ebpf_map_hashtable_eq_dec : EqDecision ebpf_map_hashtable.
Proof. solve_decision. Defined.

#[global] Instance ebpf_map_eq_dec : EqDecision ebpf_map.
Proof. solve_decision. Defined.

Definition set_data (map : ebpf_map) (hash_map : ebpf_map_hashtable) : ebpf_map :=
  {| key_size := key_size map; value_size := value_size map;
     max_entries := max_entries map; percpu := percpu map; data := hash_map |}.

(** [HASH_ELEM_VALUE(elem)]: the bytes after the key. *)
Definition HASH_ELEM_VALUE (elem : hash_elem) : list byte := elem_value elem.

(** The element as it is when handed to the epoch scheduler:
    [elem->hash_map = hash_map]. *)
Definition set_hash_map (elem : hash_elem) : hash_elem :=
  {| elem_hash_map := true; elem_key_size := elem_key_size elem;
     elem_key := elem_key elem; elem_value := elem_value elem |}.

(** ** Buckets *)

(** [hashtable_map_get_bucket]: the bucket is named by its index,
    [hash & (nbuckets - 1)] on [uint32_t]. *)
Definition hashtable_map_get_bucket (hash_map : ebpf_map_hashtable) (hash : Z) : nat :=
  Z.to_nat (Z.land (u32 hash) (u32 (nbuckets hash_map - 1))).

(** The list of the bucket at an index (the empty list outside the
    table, where the C code has no defined behaviour). *)
Definition bucket_head (hash_map : ebpf_map_hashtable) (bucket : nat) : hash_bucket :=
  default [] (buckets hash_map !! bucket).

(** [hash_bucket_lookup_elem]: the first element of the list whose key
    compares equal, as its position in the list (the pointer) and its
    contents. *)
Fixpoint hash_bucket_lookup_elem (head : hash_bucket) (key : list byte) (key_size : Z)
  : option (nat * hash_elem) :=
  match head with
  | [] => None
  | elem :: rest =>
      if decide (memcmp (elem_key elem) key (Z.to_nat key_size) = 0)
      then Some (O, elem)
      else prod_map S id <$> hash_bucket_lookup_elem rest key key_size
  end.

Section Hashtable.

(** [ebpf_jenkins_hash(key, length, seed)]: it reads [length] bytes at
    [key]. *)
Variable ebpf_jenkins_hash : list byte -> Z -> Z -> Z.

(** The update flags of [ebpf_map.h]. *)
Variable EBPF_NOEXIST : Z.
Variable EBPF_EXIST : Z.

(** [ebpf_jenkins_hash(key, map->key_size, 0)], a [uint32_t]. *)
Definition key_hash (map : ebpf_map) (key : list byte) : Z :=
  u32 (ebpf_jenkins_hash (memcpy key (key_size map)) (key_size map) 0).

(** ** lookup *)

Definition hashtable_map_lookup_elem (map : ebpf_map) (key : list byte)
  : option (list byte) :=
  let hash_map := data map in
  if decide (count hash_map = 0) then None
  else
    let bucket := hashtable_map_get_bucket hash_map (key_hash map key) in
    match hash_bucket_lookup_elem (bucket_head hash_map bucket) key (key_size map) with
    | None => None
    | Some (_, elem) => Some (HASH_ELEM_VALUE elem)
    end.

(** ** update *)

Definition check_update_flags (elem : option (nat * hash_elem)) (flags : Z) : Z :=
  match elem with
  | Some _ => if decide (Z.land flags EBPF_NOEXIST ≠ 0) then EEXIST else 0
  | None => if decide (Z.land flags EBPF_EXIST ≠ 0) then ENOENT else 0
  end.

(** [blk] is what [ebpf_allocator_alloc] returns: [None] for NULL, or a
    block with whatever it held before.  The result is the error code and
    the map after the call. *)
Definition hashtable_map_update_elem (map : ebpf_map) (key value : list byte)
    (flags : Z) (blk : option hash_elem) : Z * ebpf_map :=
  let hash_map := data map in
  if decide (count hash_map = max_entries map) then (EBUSY, map)
  else
    let bucket := hashtable_map_get_bucket hash_map (key_hash map key) in
    let old_elem :=
      hash_bucket_lookup_elem (bucket_head hash_map bucket) key (key_size map) in
    let error := check_update_flags old_elem flags in
    if decide (error ≠ 0) then (error, map)
    else
      match blk with
      | None => (ENOMEM, map)
      | Some blk =>
          let new_elem :=
            {| elem_hash_map := elem_hash_map blk;
               elem_key_size := key_size map;
               elem_key := memcpy key (key_size map);
               elem_value := memcpy value (value_size map) |} in
          (* EBPF_EPOCH_LIST_INSERT_HEAD *)
          let head := new_elem :: bucket_head hash_map bucket in
          match old_elem with
          | Some (pos, old) =>
              (* EBPF_EPOCH_LIST_REMOVE(old_elem): it now stands one
                 place further *)
              (error,
               set_data map
                 {| count := count hash_map;
                    epoch_call_count := u32 (epoch_call_count hash_map + 1);
                    elem_size := elem_size hash_map;
                    nbuckets := nbuckets hash_map;
                    buckets := <[bucket := delete (S pos) head]> (buckets hash_map);
                    epoch_calls := epoch_calls hash_map ++ [set_hash_map old] |})
          | None =>
              (error,
               set_data map
                 {| count := u32 (count hash_map + 1);
                    epoch_call_count := epoch_call_count hash_map;
                    elem_size := elem_size hash_map;
                    nbuckets := nbuckets hash_map;
                    buckets := <[bucket := head]> (buckets hash_map);
                    epoch_calls := epoch_calls hash_map |})
          end
      end.

(** ** delete *)

Definition hashtable_map_delete_elem (map : ebpf_map) (key : list byte) : Z * ebpf_map :=
  let hash_map := data map in
  let bucket := hashtable_map_get_bucket hash_map (key_hash map key) in
  match hash_bucket_lookup_elem (bucket_head hash_map bucket) key (key_size map) with
  | Some (pos, elem) =>
      (0,
       set_data map
         {| count := u32 (count hash_map - 1);
            epoch_call_count := u32 (epoch_call_count hash_map + 1);
            elem_size := elem_size hash_map;
            nbuckets := nbuckets hash_map;
            buckets := <[bucket := delete pos (bucket_head hash_map bucket)]> (buckets hash_map);
            epoch_calls := epoch_calls hash_map ++ [set_hash_map elem] |})
  | None => (0, map)
  end.

(** ** get_next_key *)

(** The loop at [get_first_key]: [for (; i < nbuckets; i++)], returning
    the key of the first element of the first bucket that has one.  [n]
    bounds the number of rounds; the loop is entered with
    [n = nbuckets - i], one round per remaining index. *)
Fixpoint get_first_key (map : ebpf_map) (n : nat) (i : Z) : Z * option (list byte) :=
  match n with
  | O => (ENOENT, None)
  | S n' =>
      if decide (i < nbuckets (data map)) then
        match bucket_head (data map) (Z.to_nat i) with
        | elem :: _ => (0, Some (memcpy (elem_key elem) (key_size map)))
        | [] => get_first_key map n' (i + 1)
        end
      else (ENOENT, None)
  end.

Definition get_first_key_from (map : ebpf_map) (i : Z) : Z * option (list byte) :=
  get_first_key map (Z.to_nat (nbuckets (data map) - i)) i.

(** [key = None] is the NULL key.  The result is the error code and what
    was written to [next_key]. *)
Definition hashtable_map_get_next_key (map : ebpf_map) (key : option (list byte))
  : Z * option (list byte) :=
  let hash_map := data map in
  if decide (count hash_map = 0 ∨ (count hash_map = 1 ∧ key ≠ None)) then (ENOENT, None)
  else
    match key with
    | None => get_first_key_from map 0
    | Some key =>
        let hash := key_hash map key in
        let bucket := hashtable_map_get_bucket hash_map hash in
        match hash_bucket_lookup_elem (bucket_head hash_map bucket) key (key_size map) with
        | None => get_first_key_from map 0
        | Some (pos, elem) =>
            (* EBPF_EPOCH_LIST_NEXT(elem, elem) *)
            match bucket_head hash_map bucket !! S pos with
            | Some next_elem => (0, Some (memcpy (elem_key next_elem) (key_size map)))
            | None =>
                get_first_key_from map (Z.land hash (u32 (nbuckets hash_map - 1)) + 1)
            end
        end
    end.

(** ** init *)

(** [sizeof(struct hash_elem)] and the number of bits of [size_t]. *)
Variable sizeof_hash_elem : Z.
Variable size_t_bits : Z.
Variable ebpf_roundup_pow_of_two : Z -> Z.

(** A value of type [size_t]. *)
Definition size_t (x : Z) : Z := x mod 2 ^ size_t_bits.

(** What the allocation calls of [init] return: whether the two
    [ebpf_calloc] calls give memory, and the error codes of
    [ebpf_allocator_init] and [ebpf_allocator_prealloc]. *)
Record init_env : Type := mk_init_env {
  calloc_hash_map : bool;
  calloc_buckets : bool;
  allocator_init : Z;
  allocator_prealloc : Z
}.

(** [key_size + value_size] is a sum of two [uint32_t]; adding the
    [size_t] of [sizeof] converts that sum to [size_t].  The number of
    elements asked of [ebpf_allocator_prealloc],
    [max_entries + ebpf_ncpus()], is seen by the allocator only.  On an
    error the map record is left as it was. *)
Definition hashtable_map_init (map : ebpf_map) (ksize vsize max_ent flags : Z)
    (env : init_env) : Z * ebpf_map :=
  if decide (size_t (u32 (ksize + vsize) + sizeof_hash_elem) > UINT32_MAX)
  then (E2BIG, map)
  else if negb (calloc_hash_map env) then (ENOMEM, map)
  else
    let n := u32 (ebpf_roundup_pow_of_two max_ent) in
    if negb (calloc_buckets env) then (ENOMEM, map)
    else if decide (allocator_init env ≠ 0) then (allocator_init env, map)
    else if decide (allocator_prealloc env ≠ 0) then (allocator_prealloc env, map)
    else
      (0,
       {| key_size := key_size map; value_size := value_size map;
          max_entries := max_entries map; percpu := false;
          data :=
            {| count := 0;
               epoch_call_count := 1;
               elem_size := u32 (size_t (u32 (ksize + vsize) + sizeof_hash_elem));
               nbuckets := n;
               buckets := replicate (Z.to_nat n) [];
               epoch_calls := [] |} |}).

(** ** The state of a map between calls *)

(** The key of an element as the code reads it: its first [key_size]
    bytes. *)
Definition ckey (map : ebpf_map) (elem : hash_elem) : list byte :=
  memcpy (elem_key elem) (key_size map).

(** The linked elements, bucket after bucket, and their keys. *)
Definition elems (map : ebpf_map) : list hash_elem := mjoin (buckets (data map)).

Definition all_keys (map : ebpf_map) : list (list byte) := ckey map <$> elems map.

(** The invariants of the data model: the table has a power of two of
    buckets, [count] is the number of linked elements and does not exceed
    [max_entries], no bucket holds a key twice, and every element is in
    the bucket of its key. *)
Record wf (map : ebpf_map) : Prop := mk_wf {
  wf_max_entries : 0 ≤ max_entries map < 2 ^ 32;
  wf_nbuckets : ∃ p, 0 ≤ p < 32 ∧ nbuckets (data map) = 2 ^ p;
  wf_length : length (buckets (data map)) = Z.to_nat (nbuckets (data map));
  wf_count : count (data map) = Z.of_nat (length (elems map));
  wf_count_max : count (data map) ≤ max_entries map;
  wf_bucket : ∀ i head, buckets (data map) !! i = Some head →
      NoDup (ckey map <$> head) ∧
      Forall (λ elem,
        hashtable_map_get_bucket (data map) (key_hash map (elem_key elem)) = i) head
}.

(** ** Sequences of calls *)

Inductive call : Type :=
  | Update (key value : list byte) (flags : Z) (blk : option hash_elem)
  | Delete (key : list byte)
  | Lookup (key : list byte)
  | GetNextKey (key : option (list byte)).

(** The map after a call. *)
Definition step (map : ebpf_map) (c : call) : ebpf_map :=
  match c with
  | Update key value flags blk => (hashtable_map_update_elem map key value flags blk).2
  | Delete key => (hashtable_map_delete_elem map key).2
  | Lookup _ | GetNextKey _ => map
  end.

Definition run (map : ebpf_map) (cs : list call) : ebpf_map := foldl step map cs.

(** The error code a call returns ([lookup] returns a pointer, not an
    error code). *)
Definition call_error (map : ebpf_map) (c : call) : Z :=
  match c with
  | Update key value flags blk => (hashtable_map_update_elem map key value flags blk).1
  | Delete key => (hashtable_map_delete_elem map key).1
  | Lookup _ => 0
  | GetNextKey key => (hashtable_map_get_next_key map key).1
  end.

(** A call that is a successful update of [key], or a delete of it.  Two
    keys are the same when [memcmp] over [key_size] bytes says so. *)
Definition writes_key (map : ebpf_map) (key : list byte) (c : call) : Prop :=
  match c with
  | Update key' value flags blk =>
      memcmp key' key (Z.to_nat (key_size map)) = 0 ∧
      (hashtable_map_update_elem map key' value flags blk).1 = 0
  | Delete key' => memcmp key' key (Z.to_nat (key_size map)) = 0
  | Lookup _ | GetNextKey _ => False
  end.

(** No call of the sequence, run from [map], writes [key]. *)
Fixpoint quiet (map : ebpf_map) (key : list byte) (cs : list call) : Prop :=
  match cs with
  | [] => True
  | c :: cs' => ¬ writes_key map key c ∧ quiet (step map c) key cs'
  end.

(** The errors of the two flags follow the presence of the key:
    [EBPF_NOEXIST] fails with EEXIST exactly when the key is there,
    [EBPF_EXIST] with ENOENT exactly when it is not. *)
Definition flag_errors_follow_presence (map : ebpf_map) (key value : list byte)
    (blk : option hash_elem) : Prop :=
  ((hashtable_map_update_elem map key value EBPF_NOEXIST blk).1 = EEXIST ↔
   is_Some (hashtable_map_lookup_elem map key)) ∧
  ((hashtable_map_update_elem map key value EBPF_EXIST blk).1 = ENOENT ↔
   hashtable_map_lookup_elem map key = None).

(** [get_next_key] of a key restarts the enumeration: it returns what
    it returns for the NULL key, and fails only in an empty map. *)
Definition absent_key_restarts (map : ebpf_map) (key : list byte) : Prop :=
  hashtable_map_get_next_key map (Some key) = hashtable_map_get_next_key map None ∧
  ((hashtable_map_get_next_key map (Some key)).1 = ENOENT → count (data map) = 0).

(** The enumeration a caller makes: [get_next_key] from the key given,
    each key returned fed back in, until the call fails; at most [n]
    calls ([None] when [n] calls did not reach the end). *)
Fixpoint enumerate (map : ebpf_map) (n : nat) (key : option (list byte))
  : option (list (list byte)) :=
  match n with
  | O => None
  | S n' =>
      match hashtable_map_get_next_key map key with
      | (error, Some next_key) =>
          if decide (error = 0)
          then (next_key ::.) <$> enumerate map n' (Some next_key)
          else Some []
      | (_, None) => Some []
      end
  end.

End Hashtable.

(** ** Teardown *)

(** Modelled from the spec: [ebpf_refcount_release], which is not part
    of the sources at hand, decrements the reference count, and its
    result is not 0 exactly when the decrement brings the count to zero.
    The pair is the count after the call and the result. *)
Definition ebpf_refcount_release (refcount : Z) : Z * Z :=
  let refcount' := u32 (refcount - 1) in
  (refcount', if decide (refcount' = 0) then 1 else 0).

(** The map and what teardown acts upon beside its record: the blocks
    given back with [ebpf_allocator_free], and the number of times
    [hashtable_map_release] has run (after the first the memory of the
    map is gone). *)
Record map_memory : Type := mk_map_memory {
  mm_map : ebpf_map;
  mm_free : list hash_elem;
  mm_released : nat
}.

(** The map with a new reference count and a new queue of the epoch
    scheduler. *)
Definition set_epoch (map : ebpf_map) (refcount : Z) (calls : list hash_elem) : ebpf_map :=
  set_data map
    {| count := count (data map);
       epoch_call_count := refcount;
       elem_size := elem_size (data map);
       nbuckets := nbuckets (data map);
       buckets := buckets (data map);
       epoch_calls := calls |}.

(** [hashtable_map_release]: the allocator, the locks, the bucket array
    and the map record are given up. *)
Definition hashtable_map_release (st : map_memory) : map_memory :=
  {| mm_map := mm_map st; mm_free := mm_free st;
     mm_released := S (mm_released st) |}.

(** [hashtable_map_deinit] *)
Definition hashtable_map_deinit (st : map_memory) : map_memory :=
  let hash_map := data (mm_map st) in
  let '(refcount, last) := ebpf_refcount_release (epoch_call_count hash_map) in
  let st' :=
    {| mm_map := set_epoch (mm_map st) refcount (epoch_calls hash_map);
       mm_free := mm_free st; mm_released := mm_released st |} in
  if decide (last ≠ 0) then hashtable_map_release st' else st'.

(** [release_hash_map_elem], the callback of the epoch scheduler.  [ec]
    names the element by its place in the queue of the scheduler;
    nothing runs for a place that holds no element. *)
Definition release_hash_map_elem (st : map_memory) (ec : nat) : map_memory :=
  let hash_map := data (mm_map st) in
  match epoch_calls hash_map !! ec with
  | None => st
  | Some elem =>
      let '(refcount, last) := ebpf_refcount_release (epoch_call_count hash_map) in
      let st' :=
        {| mm_map := set_epoch (mm_map st) refcount (delete ec (epoch_calls hash_map));
           (* ebpf_allocator_free *)
           mm_free := mm_free st ++ [elem];
           mm_released := mm_released st |} in
      if decide (last ≠ 0) then hashtable_map_release st' else st'
  end.

(** What happens to a map that is torn down: [deinit] is called, and
    the scheduler runs the callback of an element. *)
Inductive teardown_event : Type :=
  | Deinit
  | EpochCallback (ec : nat).

#[global] Instance teardown_event_eq_dec : EqDecision teardown_event.
Proof. solve_decision. Defined.

Definition teardown_step (st : map_memory) (ev : teardown_event) : map_memory :=
  match ev with
  | Deinit => hashtable_map_deinit st
  | EpochCallback ec => release_hash_map_elem st ec
  end.

Definition teardown (st : map_memory) (evs : list teardown_event) : map_memory :=
  foldl teardown_step st evs.

(** The events a caller and the scheduler may produce: [deinit] at most
    once ([deinit_left] tells whether it is still to come), and a
    callback only for an element of the queue, of [pending] elements. *)
Fixpoint well_scheduled (deinit_left : bool) (pending : nat)
    (evs : list teardown_event) : Prop :=
  match evs with
  | [] => True
  | Deinit :: evs' => deinit_left = true ∧ well_scheduled false pending evs'
  | EpochCallback ec :: evs' =>
      (ec < pending)%nat ∧ well_scheduled deinit_left (pending - 1) evs'
  end.

(** The reference count of a map in use: one for the map, one for each
    element whose callback is pending. *)
Definition refcount_ok (map : ebpf_map) : Prop :=
  epoch_call_count (data map) =
    u32 (1 + Z.of_nat (length (epoch_calls (data map)))).

(** ** A map to run the calls on *)

(** A hash function to compute with: the sum of the bytes read and the
    seed. *)
Definition sum_hash (key : list byte) (len seed : Z) : Z :=
  foldr (λ b acc, byte_val b + acc) seed key.

(** Modelled from the spec: [ebpf_roundup_pow_of_two], which is not
    part of the sources at hand, gives the smallest power of two that is
    at least the capacity asked for. *)
Definition roundup_pow_of_two (n : Z) : Z := 2 ^ Z.log2_up n.

(** A map record before [init]: keys and values of one byte, three
    entries at most. *)
Definition sample_header : ebpf_map :=
  {| key_size := 1; value_size := 1; max_entries := 3; percpu := false;
     data := {| count := 0; epoch_call_count := 0; elem_size := 0;
                nbuckets := 0; buckets := []; epoch_calls := [] |} |}.

(** The map after [init], on a platform with a header of 40 bytes and a
    [size_t] of 64 bits, every allocation succeeding: four buckets. *)
Definition sample_empty : ebpf_map :=
  (hashtable_map_init 40 64 roundup_pow_of_two sample_header 1 1 3 0
     (mk_init_env true true 0 0)).2.

(** A block of the allocator. *)
Definition sample_blk : option hash_elem := Some (mk_hash_elem false 0 [] []).

(** Keys 1 and 5 fall in bucket 1, key 2 in bucket 2, key 9 in bucket 1. *)
Definition key1 : list byte := [x01].
Definition key2 : list byte := [x02].
Definition key5 : list byte := [x05].
Definition key9 : list byte := [x09].
Definition value1 : list byte := [x0a].
Definition value2 : list byte := [x0b].
Definition value5 : list byte := [x0c].

(** The flags, as two distinct bits. *)
Definition sample_NOEXIST : Z := 1.
Definition sample_EXIST : Z := 2.

(** The map with key 1, and the full map with keys 1, 5 and 2. *)
Definition sample_one : ebpf_map :=
  run sum_hash sample_NOEXIST sample_EXIST sample_empty
    [Update key1 value1 0 sample_blk].

Definition sample_full : ebpf_map :=
  run sum_hash sample_NOEXIST sample_EXIST sample_empty
    [Update key1 value1 0 sample_blk; Update key5 value5 0 sample_blk;
     Update key2 value2 0 sample_blk].

(** The map after key 1 was written, replaced and deleted: empty, with
    two elements handed to the epoch scheduler; and the same map as
    teardown finds it. *)
Definition sample_retired : ebpf_map :=
  run sum_hash sample_NOEXIST sample_EXIST sample_empty
    [Update key1 value1 0 sample_blk; Update key1 value2 0 sample_blk;
     Delete key1].

Definition sample_memory : map_memory :=
  {| mm_map := sample_retired; mm_free := []; mm_released := 0 |}.

(** * Properties *)

(** ** Buffers and bucket lists *)

Lemma byte_val_inj (a b : byte) : byte_val a = byte_val b → a = b.
Proof.
  unfold byte_val. intros H. apply N2Z.inj in H.
  assert (Some a = Some b) as Hab; [|congruence].
  rewrite <- (Byte.of_to_N a), <- (Byte.of_to_N b). by rewrite H.
Qed.

Lemma memcmp_0_iff (s1 s2 : list byte) (n : nat) :
  memcmp s1 s2 n = 0 ↔ take n s1 = take n s2.
Proof.
  revert s1 s2. induction n as [|n IH]; intros s1 s2; simpl; [by split|].
  destruct s1 as [|a s1], s2 as [|b s2]; simpl; try (split; done).
  case_decide as Hab.
  - subst. rewrite IH. split; [congruence|]. by intros [=].
  - split; [|by intros [=]].
    intros H. destruct Hab. apply byte_val_inj. lia.
Qed.

Lemma memcmp_refl (s : list byte) (n : nat) : memcmp s s n = 0.
Proof. by apply memcmp_0_iff. Qed.

Lemma memcmp_take_l (s1 s2 : list byte) (n : nat) :
  memcmp (take n s1) s2 n = 0 ↔ memcmp s1 s2 n = 0.
Proof. by rewrite !memcmp_0_iff, take_idemp. Qed.

Lemma memcmp_memcpy_l (s1 s2 : list byte) (n : Z) :
  memcmp (memcpy s1 n) s2 (Z.to_nat n) = 0 ↔ memcmp s1 s2 (Z.to_nat n) = 0.
Proof. apply memcmp_take_l. Qed.

Lemma memcpy_idemp (s : list byte) (n : Z) : memcpy (memcpy s n) n = memcpy s n.
Proof. unfold memcpy. apply take_idemp. Qed.

Lemma memcpy_length (s : list byte) (n : Z) :
  length s = Z.to_nat n → memcpy s n = s.
Proof. intros H. unfold memcpy. apply take_ge. lia. Qed.

(** The search of a bucket is the search for the first element whose
    key compares equal. *)
Lemma hash_bucket_lookup_elem_find (head : hash_bucket) (key : list byte) (ksize : Z) :
  hash_bucket_lookup_elem head key ksize =
  list_find (λ elem, memcmp (elem_key elem) key (Z.to_nat ksize) = 0) head.
Proof. induction head as [|e head IH]; simpl; [done|]. by rewrite IH. Qed.

Lemma hash_bucket_lookup_elem_Some head key ksize pos elem :
  hash_bucket_lookup_elem head key ksize = Some (pos, elem) →
  head !! pos = Some elem ∧ take (Z.to_nat ksize) (elem_key elem) = take (Z.to_nat ksize) key.
Proof.
  rewrite hash_bucket_lookup_elem_find. intros (? & ? & _)%list_find_Some.
  by rewrite <- memcmp_0_iff.
Qed.

Lemma hash_bucket_lookup_elem_None head key ksize :
  hash_bucket_lookup_elem head key ksize = None ↔
  take (Z.to_nat ksize) key ∉ (λ e, take (Z.to_nat ksize) (elem_key e)) <$> head.
Proof.
  rewrite hash_bucket_lookup_elem_find, list_find_None, Forall_forall.
  rewrite list_elem_of_fmap. split.
  - intros H (e & He & Hin). apply (H e Hin). by apply memcmp_0_iff.
  - intros H e Hin He. apply H. exists e. by apply memcmp_0_iff in He.
Qed.

(** Two keys that compare equal are searched alike. *)
Lemma hash_bucket_lookup_elem_ext head key key' ksize :
  take (Z.to_nat ksize) key = take (Z.to_nat ksize) key' →
  hash_bucket_lookup_elem head key ksize = hash_bucket_lookup_elem head key' ksize.
Proof.
  intros Hk. rewrite !hash_bucket_lookup_elem_find. apply list_find_ext.
  intros e. by rewrite !memcmp_0_iff, Hk.
Qed.

(** In a list without a repeated key, the search of the key of an
    element finds that element, where it stands. *)
Lemma hash_bucket_lookup_elem_NoDup head ksize pos elem :
  NoDup ((λ e, take (Z.to_nat ksize) (elem_key e)) <$> head) →
  head !! pos = Some elem →
  hash_bucket_lookup_elem head (elem_key elem) ksize = Some (pos, elem).
Proof.
  intros Hnd Hpos. rewrite hash_bucket_lookup_elem_find. apply list_find_Some.
  split_and!; [done|apply memcmp_refl|].
  intros j y Hj Hlt Hy. apply memcmp_0_iff in Hy.
  assert (j = pos); [|lia].
  eapply NoDup_lookup; [done| |]; rewrite list_lookup_fmap.
  - by rewrite Hj.
  - rewrite Hpos. simpl. by rewrite Hy.
Qed.

Lemma snd_prod_map_S {A} (o : option (nat * A)) :
  snd <$> (prod_map S id <$> o) = snd <$> o.
Proof. by destruct o as [[]|]. Qed.

(** Unlinking an element whose key differs does not change what the
    search of a key finds. *)
Lemma hash_bucket_lookup_elem_delete_ne head key ksize pos elem :
  head !! pos = Some elem →
  take (Z.to_nat ksize) (elem_key elem) ≠ take (Z.to_nat ksize) key →
  snd <$> hash_bucket_lookup_elem (delete pos head) key ksize =
  snd <$> hash_bucket_lookup_elem head key ksize.
Proof.
  revert pos. induction head as [|e head IH]; intros pos Hpos Hne; [done|].
  destruct pos as [|pos]; simpl in *.
  - injection Hpos as ->. rewrite decide_False by by rewrite memcmp_0_iff.
    symmetry. apply snd_prod_map_S.
  - case_decide; [done|]. rewrite !snd_prod_map_S. by apply IH.
Qed.

(** Unlinking the element found leaves no element with that key, when
    no key is repeated. *)
Lemma hash_bucket_lookup_elem_delete_eq head key ksize pos elem :
  NoDup ((λ e, take (Z.to_nat ksize) (elem_key e)) <$> head) →
  hash_bucket_lookup_elem head key ksize = Some (pos, elem) →
  hash_bucket_lookup_elem (delete pos head) key ksize = None.
Proof.
  intros Hnd (Hpos & Hk)%hash_bucket_lookup_elem_Some.
  apply hash_bucket_lookup_elem_None. rewrite <- Hk.
  rewrite <- (take_drop_middle _ _ _ Hpos) in Hnd.
  rewrite delete_take_drop.
  rewrite fmap_app in *. simpl in Hnd.
  apply NoDup_app in Hnd as (_ & Hl & Hr).
  apply NoDup_cons in Hr as [Hr _].
  intros [Hin|Hin]%elem_of_app; [|done].
  apply (Hl _ Hin). left.
Qed.

Lemma NoDup_fmap_delete {A B} (f : A → B) (l : list A) (i : nat) :
  NoDup (f <$> l) → NoDup (f <$> delete i l).
Proof.
  intros H. rewrite list_fmap_delete.
  eapply sublist_NoDup; [done|apply sublist_delete].
Qed.

(** The number of elements of a table after one bucket is replaced. *)
Lemma length_join_insert {A} (ls : list (list A)) (i : nat) (l l' : list A) :
  ls !! i = Some l →
  (length (mjoin (<[i:=l']> ls)) + length l = length (mjoin ls) + length l')%nat.
Proof.
  revert i. induction ls as [|x ls IH]; intros i Hi; [done|].
  destruct i as [|i]; simpl in *.
  - injection Hi as ->. rewrite !length_app. lia.
  - specialize (IH i Hi). rewrite !length_app. lia.
Qed.

Lemma u32_small (x : Z) : 0 ≤ x < 2 ^ 32 → u32 x = x.
Proof. intros H. unfold u32. by apply Z.mod_small. Qed.

Lemma u32_idemp (x : Z) : u32 (u32 x) = u32 x.
Proof. unfold u32. apply Z.mod_mod. lia. Qed.

Lemma pow2_bounds (p : Z) : 0 ≤ p < 32 → 0 < 2 ^ p ≤ 2 ^ 31.
Proof.
  intros H. split; [apply Z.pow_pos_nonneg; lia|].
  apply Z.pow_le_mono_r; lia.
Qed.

(** The index of a bucket lies inside a table of a power of two of
    buckets. *)
Lemma get_bucket_bound (hash_map : ebpf_map_hashtable) (hash : Z) :
  (∃ p, 0 ≤ p < 32 ∧ nbuckets hash_map = 2 ^ p) →
  0 ≤ Z.land (u32 hash) (u32 (nbuckets hash_map - 1)) < nbuckets hash_map.
Proof.
  intros (p & Hp & ->). pose proof (pow2_bounds p Hp) as Hb.
  rewrite (u32_small (2 ^ p - 1)) by lia.
  replace (2 ^ p - 1) with (Z.ones p) by (rewrite Z.ones_equiv; lia).
  rewrite Z.land_ones by lia. apply Z.mod_pos_bound. lia.
Qed.

(** Unfolding of the operations, by their names in the source. *)
Ltac unfold_key_hash := unfold key_hash in *.
Ltac unfold_lookup := unfold hashtable_map_lookup_elem in *.
Ltac unfold_update := unfold hashtable_map_update_elem, check_update_flags in *.
Ltac unfold_flag_errors := unfold flag_errors_follow_presence in *.
Ltac unfold_absent_key := unfold absent_key_restarts in *.
Ltac unfold_get_first_key_from := unfold get_first_key_from in *.
Ltac unfold_init := unfold hashtable_map_init in *.
Ltac unfold_size_t := unfold size_t in *.
Ltac unfold_delete := unfold hashtable_map_delete_elem in *.
Ltac unfold_get_next_key := unfold hashtable_map_get_next_key in *.

Section Properties.

Variable ebpf_jenkins_hash : list byte → Z → Z → Z.
Variable EBPF_NOEXIST : Z.
Variable EBPF_EXIST : Z.

Local Abbreviation key_hash := (key_hash ebpf_jenkins_hash).
Local Abbreviation wf := (wf ebpf_jenkins_hash).
Local Abbreviation hashtable_map_lookup_elem :=
  (hashtable_map_lookup_elem ebpf_jenkins_hash).
Local Abbreviation hashtable_map_update_elem :=
  (hashtable_map_update_elem ebpf_jenkins_hash EBPF_NOEXIST EBPF_EXIST).
Local Abbreviation hashtable_map_delete_elem :=
  (hashtable_map_delete_elem ebpf_jenkins_hash).
Local Abbreviation hashtable_map_get_next_key :=
  (hashtable_map_get_next_key ebpf_jenkins_hash).
Local Abbreviation step := (step ebpf_jenkins_hash EBPF_NOEXIST EBPF_EXIST).
Local Abbreviation run := (run ebpf_jenkins_hash EBPF_NOEXIST EBPF_EXIST).
Local Abbreviation quiet := (quiet ebpf_jenkins_hash EBPF_NOEXIST EBPF_EXIST).
Local Abbreviation enumerate := (enumerate ebpf_jenkins_hash).
Local Abbreviation flag_errors_follow_presence :=
  (flag_errors_follow_presence ebpf_jenkins_hash EBPF_NOEXIST EBPF_EXIST).
Local Abbreviation absent_key_restarts :=
  (absent_key_restarts ebpf_jenkins_hash).
Local Abbreviation call_error :=
  (call_error ebpf_jenkins_hash EBPF_NOEXIST EBPF_EXIST).
Local Abbreviation key_bucket map key :=
  (hashtable_map_get_bucket (data map) (key_hash map key)).

Implicit Types (map : ebpf_map) (key value : list byte) (elem : hash_elem).

(** ** The invariants at work *)

Lemma key_hash_ext map key key' :
  memcpy key (key_size map) = memcpy key' (key_size map) →
  key_hash map key = key_hash map key'.
Proof. unfold_key_hash. by intros ->. Qed.

Lemma key_hash_memcpy map key :
  key_hash map (memcpy key (key_size map)) = key_hash map key.
Proof. apply key_hash_ext, memcpy_idemp. Qed.

Lemma key_bucket_lt map key :
  wf map → (key_bucket map key < length (buckets (data map)))%nat.
Proof.
  intros Hwf. rewrite (wf_length _ _ Hwf). unfold hashtable_map_get_bucket.
  pose proof (get_bucket_bound (data map) (key_hash map key)
                (wf_nbuckets _ _ Hwf)). lia.
Qed.

Lemma key_bucket_Some map key :
  wf map →
  buckets (data map) !! key_bucket map key =
    Some (bucket_head (data map) (key_bucket map key)).
Proof.
  intros Hwf. unfold bucket_head.
  destruct (lookup_lt_is_Some_2 _ _ (key_bucket_lt map key Hwf)) as [head Hi].
  by rewrite Hi.
Qed.

Lemma bucket_head_NoDup map i :
  wf map → NoDup (ckey map <$> bucket_head (data map) i).
Proof.
  intros Hwf. unfold bucket_head.
  destruct (buckets (data map) !! i) as [head|] eqn:Hi; simpl.
  - by apply (wf_bucket _ _ Hwf i).
  - constructor.
Qed.

(** An empty map has empty buckets. *)
Lemma count_0_bucket_head map i :
  wf map → count (data map) = 0 → bucket_head (data map) i = [].
Proof.
  intros Hwf H0. rewrite (wf_count _ _ Hwf) in H0.
  assert (elems map = []) as He by (apply length_zero_iff_nil; lia).
  unfold elems in He. apply join_nil_1 in He.
  unfold bucket_head. destruct (buckets (data map) !! i) as [head|] eqn:Hi; [|done].
  simpl. by apply (Forall_lookup_1 _ _ _ _ He Hi).
Qed.

(** An element of a bucket counts. *)
Lemma bucket_elem_count map i head elem :
  wf map → buckets (data map) !! i = Some head → elem ∈ head →
  0 < count (data map).
Proof.
  intros Hwf Hi He. rewrite (wf_count _ _ Hwf).
  assert (elem ∈ elems map) as Hin.
  { apply list_elem_of_join. exists head. split; [done|].
    by eapply list_elem_of_lookup_2. }
  destruct (elems map); [by apply not_elem_of_nil in Hin|simpl; lia].
Qed.

(** What [lookup] returns, in terms of the search of the bucket. *)
Lemma lookup_elem_bucket map key :
  wf map →
  hashtable_map_lookup_elem map key =
    HASH_ELEM_VALUE ∘ snd <$>
      hash_bucket_lookup_elem (bucket_head (data map) (key_bucket map key))
        key (key_size map).
Proof.
  intros Hwf. unfold_lookup. case_decide as H0.
  - by rewrite count_0_bucket_head.
  - by destruct (hash_bucket_lookup_elem _ _ _) as [[]|].
Qed.

(** ** The invariants are kept *)

(** Replacing the list of one bucket keeps the invariants, when the new
    list has no repeated key, its elements belong to the bucket, and
    [count] follows. *)
Lemma wf_replace map hash_map' i head head' :
  wf map →
  buckets (data map) !! i = Some head →
  nbuckets hash_map' = nbuckets (data map) →
  buckets hash_map' = <[i := head']> (buckets (data map)) →
  count hash_map' = count (data map) + Z.of_nat (length head') - Z.of_nat (length head) →
  count hash_map' ≤ max_entries map →
  NoDup (ckey map <$> head') →
  Forall (λ elem, key_bucket map (elem_key elem) = i) head' →
  wf (set_data map hash_map').
Proof.
  intros Hwf Hi Hn Hb Hc Hmax Hnd Hfa.
  destruct Hwf as [Hm Hp Hlen Hcount Hle Hbk].
  split; simpl.
  - done.
  - by rewrite Hn.
  - by rewrite Hb, Hn, length_insert.
  - unfold elems in *. simpl. rewrite Hb.
    pose proof (length_join_insert _ _ _ head' Hi). lia.
  - done.
  - intros j head'' Hj. rewrite Hb in Hj.
    unfold hashtable_map_get_bucket. rewrite Hn.
    destruct (decide (i = j)) as [->|Hne].
    + rewrite list_lookup_insert_eq in Hj by by eapply lookup_lt_Some.
      injection Hj as <-. done.
    + rewrite list_lookup_insert_ne in Hj by done. by apply Hbk.
Qed.

Lemma update_elem_wf map key value flags blk :
  wf map → wf (hashtable_map_update_elem map key value flags blk).2.
Proof.
  intros Hwf. unfold_update.
  case_decide as Hfull; [done|].
  pose proof (key_bucket_Some map key Hwf) as Hi.
  pose proof (bucket_head_NoDup map (key_bucket map key) Hwf) as Hnd.
  apply (wf_bucket _ _ Hwf) in Hi as Hok. destruct Hok as [_ Hfa].
  set (head := bucket_head (data map) (key_bucket map key)) in *.
  destruct (hash_bucket_lookup_elem head key (key_size map))
    as [[pos old]|] eqn:Hold; simpl.
  - case_decide; [done|]. case_decide; [done|].
    destruct blk as [blk|]; [|done]. simpl.
    pose proof Hold as (Hpos & Hk)%hash_bucket_lookup_elem_Some.
    eapply wf_replace; [done|exact Hi|done|done|..]; simpl.
    + rewrite length_delete by done. apply lookup_lt_Some in Hpos. lia.
    + apply (wf_count_max _ _ Hwf).
    + apply NoDup_cons. split; [|by apply NoDup_fmap_delete].
      apply hash_bucket_lookup_elem_delete_eq in Hold; [|done].
      apply hash_bucket_lookup_elem_None in Hold.
      unfold ckey at 1. simpl. by rewrite memcpy_idemp.
    + constructor; [simpl; by rewrite key_hash_memcpy|by apply Forall_delete].
  - case_decide; [done|]. case_decide; [done|].
    destruct blk as [blk|]; [|done]. simpl.
    pose proof (wf_count _ _ Hwf) as Hc.
    pose proof (wf_count_max _ _ Hwf) as Hle.
    pose proof (wf_max_entries _ _ Hwf) as Hm.
    assert (u32 (count (data map) + 1) = count (data map) + 1) as Hu
      by (apply u32_small; lia).
    eapply wf_replace; [done|exact Hi|done|done|..]; simpl.
    + lia.
    + lia.
    + apply NoDup_cons. split; [|done].
      apply hash_bucket_lookup_elem_None in Hold.
      unfold ckey at 1. simpl. by rewrite memcpy_idemp.
    + constructor; [simpl; by rewrite key_hash_memcpy|done].
Qed.

Lemma delete_elem_wf map key :
  wf map → wf (hashtable_map_delete_elem map key).2.
Proof.
  intros Hwf. unfold_delete.
  pose proof (key_bucket_Some map key Hwf) as Hi.
  pose proof (bucket_head_NoDup map (key_bucket map key) Hwf) as Hnd.
  apply (wf_bucket _ _ Hwf) in Hi as Hok. destruct Hok as [_ Hfa].
  set (head := bucket_head (data map) (key_bucket map key)) in *.
  destruct (hash_bucket_lookup_elem head key (key_size map))
    as [[pos old]|] eqn:Hold; simpl; [|done].
  pose proof Hold as (Hpos & Hk)%hash_bucket_lookup_elem_Some.
  pose proof (bucket_elem_count map _ _ old Hwf Hi
                (list_elem_of_lookup_2 _ _ _ Hpos)) as Hpos0.
  pose proof (wf_count_max _ _ Hwf) as Hle.
  pose proof (wf_max_entries _ _ Hwf) as Hm.
  assert (u32 (count (data map) - 1) = count (data map) - 1) as Hu
    by (apply u32_small; lia).
  eapply wf_replace; [done|exact Hi|done|done|..]; simpl.
  - rewrite length_delete by done. apply lookup_lt_Some in Hpos. lia.
  - lia.
  - by apply NoDup_fmap_delete.
  - by apply Forall_delete.
Qed.

Lemma step_wf map (c : call) : wf map → wf (step map c).
Proof.
  destruct c; simpl; auto using update_elem_wf, delete_elem_wf.
Qed.

Lemma run_wf map (cs : list call) : wf map → wf (run map cs).
Proof.
  revert map. induction cs as [|c cs IH]; intros map Hwf; simpl; [done|].
  apply IH. by apply step_wf.
Qed.

(** ** What a call does to the table *)

Lemma bucket_head_insert (hash_map hash_map' : ebpf_map_hashtable) i j head' :
  buckets hash_map' = <[i := head']> (buckets hash_map) →
  (i < length (buckets hash_map))%nat →
  bucket_head hash_map' j =
    if decide (i = j) then head' else bucket_head hash_map j.
Proof.
  intros Hb Hlt. unfold bucket_head. rewrite Hb. case_decide as Hij.
  - subst. by rewrite list_lookup_insert_eq.
  - by rewrite list_lookup_insert_ne.
Qed.

(** An update either fails and leaves the map as it was, or links a new
    element with the key and the value at the head of the bucket of the
    key, in the place of the element that had the key if there was
    one. *)
Lemma update_elem_cases map key value flags blk :
  let r := hashtable_map_update_elem map key value flags blk in
  let head := bucket_head (data map) (key_bucket map key) in
  (r.1 ≠ 0 ∧ r.2 = map) ∨
  (r.1 = 0 ∧ count (data map) ≠ max_entries map ∧
   ∃ new_elem rest hash_map',
     r.2 = set_data map hash_map' ∧
     elem_key new_elem = memcpy key (key_size map) ∧
     elem_value new_elem = memcpy value (value_size map) ∧
     nbuckets hash_map' = nbuckets (data map) ∧
     buckets hash_map' =
       <[key_bucket map key := new_elem :: rest]> (buckets (data map)) ∧
     ((hash_bucket_lookup_elem head key (key_size map) = None ∧
       rest = head ∧ count hash_map' = u32 (count (data map) + 1)) ∨
      (∃ pos old,
         hash_bucket_lookup_elem head key (key_size map) = Some (pos, old) ∧
         rest = delete pos head ∧ count hash_map' = count (data map)))).
Proof.
  intros r head. subst r. unfold_update.
  case_decide as Hfull; [by left|].
  fold head.
  destruct (hash_bucket_lookup_elem head key (key_size map))
    as [[pos old]|] eqn:Hold; simpl.
  - destruct (decide (Z.land flags EBPF_NOEXIST ≠ 0)); [by left|].
    rewrite decide_False by (intros []; done).
    destruct blk as [blk|]; [|by left]. right. simpl.
    split_and!; [done..|].
    eexists (mk_hash_elem _ _ _ _), _, _. split_and!; [reflexivity..|].
    right. by exists pos, old.
  - destruct (decide (Z.land flags EBPF_EXIST ≠ 0)); [by left|].
    rewrite decide_False by (intros []; done).
    destruct blk as [blk|]; [|by left]. right. simpl.
    split_and!; [done..|].
    eexists (mk_hash_elem _ _ _ _), _, _. split_and!; [reflexivity..|].
    by left.
Qed.

(** A delete unlinks the element that has the key, if there is one. *)
Lemma delete_elem_cases map key :
  let r := hashtable_map_delete_elem map key in
  let head := bucket_head (data map) (key_bucket map key) in
  r.1 = 0 ∧
  ((hash_bucket_lookup_elem head key (key_size map) = None ∧ r.2 = map) ∨
   (∃ pos old hash_map',
      hash_bucket_lookup_elem head key (key_size map) = Some (pos, old) ∧
      r.2 = set_data map hash_map' ∧
      nbuckets hash_map' = nbuckets (data map) ∧
      buckets hash_map' =
        <[key_bucket map key := delete pos head]> (buckets (data map)) ∧
      count hash_map' = u32 (count (data map) - 1))).
Proof.
  intros r head. subst r. unfold_delete. fold head.
  destruct (hash_bucket_lookup_elem head key (key_size map))
    as [[pos old]|] eqn:Hold; simpl; (split; [done|]).
  - right. by eexists pos, old, _.
  - by left.
Qed.

Lemma key_bucket_set map hash_map' key :
  nbuckets hash_map' = nbuckets (data map) →
  key_bucket (set_data map hash_map') key = key_bucket map key.
Proof. intros Hn. unfold hashtable_map_get_bucket. simpl. by rewrite Hn. Qed.

(** [lookup] in a map one bucket of which was replaced. *)
Lemma lookup_elem_set map hash_map' i head' key :
  wf map → wf (set_data map hash_map') →
  nbuckets hash_map' = nbuckets (data map) →
  buckets hash_map' = <[i := head']> (buckets (data map)) →
  (i < length (buckets (data map)))%nat →
  hashtable_map_lookup_elem (set_data map hash_map') key =
    HASH_ELEM_VALUE ∘ snd <$>
      hash_bucket_lookup_elem
        (if decide (i = key_bucket map key) then head'
         else bucket_head (data map) (key_bucket map key))
        key (key_size map).
Proof.
  intros Hwf Hwf' Hn Hb Hlt. rewrite lookup_elem_bucket by done.
  rewrite key_bucket_set by done. simpl.
  by rewrite (bucket_head_insert (data map) hash_map' i _ head').
Qed.

Lemma option_fmap_snd {A B C} (f : B → C) (o1 o2 : option (A * B)) :
  snd <$> o1 = snd <$> o2 → f ∘ snd <$> o1 = f ∘ snd <$> o2.
Proof. destruct o1 as [[]|], o2 as [[]|]; simpl; congruence. Qed.

(** A successful update makes [lookup] return the value. *)
Lemma lookup_elem_update map key value flags blk :
  wf map →
  (hashtable_map_update_elem map key value flags blk).1 = 0 →
  hashtable_map_lookup_elem (hashtable_map_update_elem map key value flags blk).2 key =
    Some (memcpy value (value_size map)).
Proof.
  intros Hwf H0.
  pose proof (update_elem_wf map key value flags blk Hwf) as Hwf'.
  destruct (update_elem_cases map key value flags blk)
    as [[? _]|(_ & _ & new & rest & hm & Hr & Hk & Hv & Hn & Hb & _)]; [done|].
  rewrite Hr in *.
  rewrite (lookup_elem_set map hm (key_bucket map key) (new :: rest));
    [|done..|by apply key_bucket_lt].
  rewrite decide_True by done. simpl.
  rewrite decide_True; [simpl; by rewrite <- Hv|].
  rewrite Hk. apply memcmp_memcpy_l, memcmp_refl.
Qed.

(** A call that does not write a key does not change what [lookup]
    returns for it. *)
Lemma lookup_elem_step map key (c : call) :
  wf map →
  ¬ writes_key ebpf_jenkins_hash EBPF_NOEXIST EBPF_EXIST map key c →
  hashtable_map_lookup_elem (step map c) key = hashtable_map_lookup_elem map key.
Proof.
  intros Hwf Hq. destruct c as [key' value flags blk|key'| |]; simpl in *; [| |done..].
  - pose proof (update_elem_wf map key' value flags blk Hwf) as Hwf'.
    destruct (update_elem_cases map key' value flags blk)
      as [[_ ->]|(H0 & _ & new & rest & hm & Hr & Hk & Hv & Hn & Hb & Hrest)]; [done|].
    assert (memcmp key' key (Z.to_nat (key_size map)) ≠ 0) as Hne by tauto.
    rewrite Hr in *.
    rewrite (lookup_elem_set map hm (key_bucket map key') (new :: rest));
      [|done..|by apply key_bucket_lt].
    rewrite (lookup_elem_bucket map) by done.
    case_decide as Hij; [|done]. rewrite <- Hij. simpl.
    rewrite decide_False by (by rewrite Hk, memcmp_memcpy_l).
    apply option_fmap_snd. rewrite snd_prod_map_S.
    destruct Hrest as [(_ & -> & _)|(pos & old & Hold & -> & _)]; [done|].
    apply hash_bucket_lookup_elem_Some in Hold as [Hpos Hold].
    eapply hash_bucket_lookup_elem_delete_ne; [done|].
    rewrite Hold. by rewrite <- memcmp_0_iff.
  - pose proof (delete_elem_wf map key' Hwf) as Hwf'.
    destruct (delete_elem_cases map key')
      as [_ [[_ ->]|(pos & old & hm & Hold & Hr & Hn & Hb & _)]]; [done|].
    rewrite Hr in *.
    rewrite (lookup_elem_set map hm (key_bucket map key')
               (delete pos (bucket_head (data map) (key_bucket map key'))));
      [|done..|by apply key_bucket_lt].
    rewrite (lookup_elem_bucket map) by done.
    case_decide as Hij; [|done]. rewrite <- Hij.
    apply option_fmap_snd.
    apply hash_bucket_lookup_elem_Some in Hold as [Hpos Hold].
    eapply hash_bucket_lookup_elem_delete_ne; [done|].
    rewrite Hold. by rewrite <- memcmp_0_iff.
Qed.

Lemma lookup_elem_run map key (cs : list call) :
  wf map → quiet map key cs →
  hashtable_map_lookup_elem (run map cs) key = hashtable_map_lookup_elem map key.
Proof.
  revert map. induction cs as [|c cs IH]; intros map Hwf Hq; simpl in *; [done|].
  destruct Hq as [Hc Hq].
  rewrite IH; [|by apply step_wf|done].
  by apply lookup_elem_step.
Qed.

(** C1: after an update of a key that succeeds ([default] flags or any
    other), [lookup] of the key returns the value written, and goes on
    returning it over every sequence of calls none of which is a
    successful update or a delete of that key. *)
Theorem lookup_after_update map key value flags blk (cs : list call) :
  wf map →
  length value = Z.to_nat (value_size map) →
  (hashtable_map_update_elem map key value flags blk).1 = 0 →
  let map' := (hashtable_map_update_elem map key value flags blk).2 in
  hashtable_map_lookup_elem map' key = Some value ∧
  (quiet map' key cs → hashtable_map_lookup_elem (run map' cs) key = Some value).
Proof.
  intros Hwf Hlen H0 map'.
  assert (hashtable_map_lookup_elem map' key = Some value) as Hl.
  { unfold map'. rewrite lookup_elem_update by done. by rewrite memcpy_length. }
  split; [done|]. intros Hq.
  rewrite lookup_elem_run; [done| |done]. by apply update_elem_wf.
Qed.

(** C10: an update or a delete of a key, whether it succeeds or fails,
    leaves the list of every bucket other than the bucket of the key,
    the one at index [hash(key) & (nbuckets - 1)], as it was. *)
Theorem other_buckets_unchanged map key value flags blk (i : nat) :
  i ≠ hashtable_map_get_bucket (data map) (key_hash map key) →
  buckets (data (hashtable_map_update_elem map key value flags blk).2) !! i =
    buckets (data map) !! i ∧
  buckets (data (hashtable_map_delete_elem map key).2) !! i =
    buckets (data map) !! i.
Proof.
  intros Hi. split.
  - destruct (update_elem_cases map key value flags blk)
      as [[_ ->]|(_ & _ & new & rest & hm & -> & _ & _ & _ & Hb & _)]; [done|].
    simpl. rewrite Hb. by apply list_lookup_insert_ne.
  - destruct (delete_elem_cases map key)
      as [_ [[_ ->]|(pos & old & hm & _ & -> & _ & Hb & _)]]; [done|].
    simpl. rewrite Hb. by apply list_lookup_insert_ne.
Qed.


(** C4: a delete returns success whether the key is there or not; when
    it is not the map is left as it was; and a lookup of the key right
    after the delete finds nothing. *)
Theorem delete_then_lookup map key :
  wf map →
  (hashtable_map_delete_elem map key).1 = 0 ∧
  hashtable_map_lookup_elem (hashtable_map_delete_elem map key).2 key = None ∧
  (hashtable_map_lookup_elem map key = None →
   (hashtable_map_delete_elem map key).2 = map).
Proof.
  intros Hwf.
  pose proof (delete_elem_wf map key Hwf) as Hwf'.
  pose proof (lookup_elem_bucket map key Hwf) as Hl.
  destruct (delete_elem_cases map key)
    as [H0 [[Hnone Hr]|(pos & old & hm & Hold & Hr & Hn & Hb & _)]].
  - rewrite Hr. split_and!; [done| |done]. by rewrite Hl, Hnone.
  - split_and!; [done| |by rewrite Hl, Hold].
    rewrite Hr in *.
    rewrite (lookup_elem_set map hm (key_bucket map key)
               (delete pos (bucket_head (data map) (key_bucket map key))));
      [|done..|by apply key_bucket_lt].
    rewrite decide_True by done.
    erewrite hash_bucket_lookup_elem_delete_eq; [done| |done].
    by apply bucket_head_NoDup.
Qed.

(** ** The live keys *)

Lemma NoDup_fmap_join {A B} (f : A → B) (idx : B → nat) (ls : list (list A)) (off : nat) :
  (∀ i l, ls !! i = Some l →
     NoDup (f <$> l) ∧ Forall (λ x, idx (f x) = (off + i)%nat) l) →
  NoDup (f <$> mjoin ls).
Proof.
  revert off. induction ls as [|l ls IH]; intros off H; simpl; [constructor|].
  rewrite fmap_app. apply NoDup_app.
  destruct (H 0%nat l eq_refl) as [Hnd F0]. split_and!; [done| |].
  - intros y (x & -> & Hx)%list_elem_of_fmap (x' & Heq & Hx')%list_elem_of_fmap.
    apply list_elem_of_join in Hx' as (l' & Hx' & Hl').
    apply list_elem_of_lookup in Hl' as [i Hi].
    destruct (H (S i) l' Hi) as [_ F1].
    rewrite Forall_forall in F0, F1.
    specialize (F0 x Hx). specialize (F1 x' Hx'). rewrite Heq in F0. lia.
  - apply (IH (S off)). intros i l' Hi. destruct (H (S i) l' Hi) as [? F].
    split; [done|]. eapply Forall_impl; [done|]. intros x Hx. simpl in *. lia.
Qed.

(** No key is linked twice in the table. *)
Lemma all_keys_NoDup map : wf map → NoDup (all_keys map).
Proof.
  intros Hwf. unfold all_keys, elems.
  apply (NoDup_fmap_join (ckey map) (λ k, key_bucket map k) _ 0).
  intros i l Hi. destruct (wf_bucket _ _ Hwf i l Hi) as [Hnd Hfa].
  split; [done|]. eapply Forall_impl; [done|].
  intros e He. simpl in *. unfold ckey. by rewrite key_hash_memcpy.
Qed.

(** [lookup] of a key finds the element linked under that key. *)
Lemma lookup_elem_of map elem key :
  wf map → elem ∈ elems map →
  ckey map elem = memcpy key (key_size map) →
  hashtable_map_lookup_elem map key = Some (elem_value elem).
Proof.
  intros Hwf Hin Hk. rewrite lookup_elem_bucket by done.
  apply list_elem_of_join in Hin as (head & Hin & Hhead).
  apply list_elem_of_lookup in Hhead as [i Hi].
  apply list_elem_of_lookup in Hin as [pos Hpos].
  destruct (wf_bucket _ _ Hwf i head Hi) as [Hnd Hfa].
  rewrite Forall_forall in Hfa.
  specialize (Hfa elem (list_elem_of_lookup_2 _ _ _ Hpos)). simpl in Hfa.
  assert (key_bucket map key = i) as ->.
  { rewrite <- Hfa. f_equal. by apply key_hash_ext. }
  unfold bucket_head. rewrite Hi. simpl.
  rewrite (hash_bucket_lookup_elem_ext head key (elem_key elem)) by done.
  by erewrite hash_bucket_lookup_elem_NoDup.
Qed.

(** The keys [lookup] finds are the keys linked in the table. *)
Lemma lookup_elem_all_keys map key :
  wf map →
  is_Some (hashtable_map_lookup_elem map key) ↔
  memcpy key (key_size map) ∈ all_keys map.
Proof.
  intros Hwf. split.
  - rewrite lookup_elem_bucket by done. intros [v Hv].
    apply fmap_Some in Hv as ([pos e] & Hf & _).
    apply hash_bucket_lookup_elem_Some in Hf as [Hpos Hk].
    unfold all_keys. apply list_elem_of_fmap. exists e. split; [done|].
    apply list_elem_of_join.
    exists (bucket_head (data map) (key_bucket map key)). split.
    + by eapply list_elem_of_lookup_2.
    + eapply list_elem_of_lookup_2. by apply key_bucket_Some.
  - intros (e & Hk & Hin)%list_elem_of_fmap.
    by erewrite lookup_elem_of.
Qed.

(** C3: when the count of a map equals [max_entries], an update fails
    with EBUSY, whatever the key and the flags, and leaves the map as it
    was: the [max_entries] keys linked are distinct, and [lookup] of each
    after the failed update returns its value. *)
Theorem full_map_update_fails map key value flags blk :
  wf map →
  count (data map) = max_entries map →
  hashtable_map_update_elem map key value flags blk = (EBUSY, map) ∧
  Z.of_nat (length (all_keys map)) = max_entries map ∧
  NoDup (all_keys map) ∧
  ∀ elem, elem ∈ elems map →
    hashtable_map_lookup_elem
      (hashtable_map_update_elem map key value flags blk).2 (elem_key elem) =
    Some (elem_value elem).
Proof.
  intros Hwf Hfull.
  assert (hashtable_map_update_elem map key value flags blk = (EBUSY, map)) as Hu.
  { unfold_update. by rewrite decide_True. }
  split_and!; [done| |by apply all_keys_NoDup|].
  - unfold all_keys. rewrite length_fmap, <- Hfull. symmetry. apply (wf_count _ _ Hwf).
  - intros elem Hin. rewrite Hu. simpl. by eapply lookup_elem_of.
Qed.

(** C2, amended: in a map that is not full, an update with
    [EBPF_NOEXIST] fails with EEXIST exactly when the key is there, and
    an update with [EBPF_EXIST] fails with ENOENT exactly when it is
    not; in a full map both fail with EBUSY, before the key is looked
    for.  The two flags are distinct bits. *)
Theorem update_flags_errors map key value blk :
  wf map →
  EBPF_NOEXIST ≠ 0 → EBPF_EXIST ≠ 0 → Z.land EBPF_NOEXIST EBPF_EXIST = 0 →
  (count (data map) ≠ max_entries map →
   flag_errors_follow_presence map key value blk) ∧
  (count (data map) = max_entries map →
   (hashtable_map_update_elem map key value EBPF_NOEXIST blk).1 = EBUSY ∧
   (hashtable_map_update_elem map key value EBPF_EXIST blk).1 = EBUSY).
Proof.
  intros Hwf Hne He Hdisj.
  assert (Z.land EBPF_EXIST EBPF_NOEXIST = 0) as Hdisj' by by rewrite Z.land_comm.
  split.
  - intros Hfull. unfold_flag_errors.
    rewrite lookup_elem_bucket by done. unfold_update.
    destruct (decide (count (data map) = max_entries map)) as [?|_]; [done|].
    destruct (hash_bucket_lookup_elem _ key (key_size map)) as [[pos old]|];
      simpl; rewrite ?Z.land_diag, ?Hdisj, ?Hdisj';
      repeat case_decide; try done; destruct blk; simpl;
      (split; split); try done; eauto; intros [? [=]].
  - intros Hfull. unfold_update. by rewrite !decide_True.
Qed.

(** ** Enumeration *)

(** The loop at [get_first_key], entered at a bucket with one round per
    remaining bucket, returns the key of the first element linked from
    that bucket on. *)
Lemma get_first_key_drop map (n j : nat) :
  wf map →
  n = (length (buckets (data map)) - j)%nat →
  get_first_key map n (Z.of_nat j) =
    match mjoin (drop j (buckets (data map))) with
    | [] => (ENOENT, None)
    | elem :: _ => (0, Some (ckey map elem))
    end.
Proof.
  intros Hwf. pose proof (wf_length _ _ Hwf) as Hlen.
  destruct (wf_nbuckets _ _ Hwf) as (p & Hp & Hnb).
  pose proof (pow2_bounds p Hp) as Hpow.
  revert j. induction n as [|n IH]; intros j Hn; simpl.
  - by rewrite drop_ge by lia.
  - rewrite decide_True by lia. rewrite Nat2Z.id. unfold bucket_head.
    destruct (lookup_lt_is_Some_2 (buckets (data map)) j) as [head Hj]; [lia|].
    rewrite Hj, (drop_S _ _ _ Hj). simpl.
    destruct head as [|elem head]; [|done].
    replace (Z.of_nat j + 1) with (Z.of_nat (S j)) by lia.
    rewrite IH by lia. done.
Qed.

Lemma get_first_key_from_drop map (j : nat) :
  wf map →
  get_first_key_from map (Z.of_nat j) =
    match mjoin (drop j (buckets (data map))) with
    | [] => (ENOENT, None)
    | elem :: _ => (0, Some (ckey map elem))
    end.
Proof.
  intros Hwf. unfold_get_first_key_from. apply get_first_key_drop; [done|].
  rewrite (wf_length _ _ Hwf). lia.
Qed.

Lemma get_first_key_from_0 map :
  wf map →
  get_first_key_from map 0 =
    match elems map with
    | [] => (ENOENT, None)
    | elem :: _ => (0, Some (ckey map elem))
    end.
Proof. intros Hwf. by apply (get_first_key_from_drop map 0). Qed.

(** [get_next_key] of the NULL key returns the first key linked. *)
Lemma get_next_key_None map :
  wf map →
  hashtable_map_get_next_key map None =
    match elems map with
    | [] => (ENOENT, None)
    | elem :: _ => (0, Some (ckey map elem))
    end.
Proof.
  intros Hwf. unfold_get_next_key.
  pose proof (wf_count _ _ Hwf) as Hc. case_decide as H0.
  - destruct H0 as [H0|[_ ?]]; [|done].
    destruct (elems map); [done|simpl in *; lia].
  - by apply get_first_key_from_0.
Qed.

(** Where an element of the joined lists stands. *)
Lemma join_split {A} (ls : list (list A)) (l1 l2 : list A) (x : A) :
  mjoin ls = l1 ++ x :: l2 →
  ∃ pre b1 b2 post,
    ls = pre ++ (b1 ++ x :: b2) :: post ∧
    l1 = mjoin pre ++ b1 ∧ l2 = b2 ++ mjoin post.
Proof.
  revert l1. induction ls as [|b ls IH]; intros l1 H; simpl in H.
  { by destruct l1. }
  apply app_eq_inv in H as [(k & Hb & Hk)|(k & Hl1 & Hk)].
  - destruct k as [|y k]; simpl in Hk.
    + symmetry in Hk. apply (IH []) in Hk as (pre & b1 & b2 & post & -> & H1 & ->).
      exists (b :: pre), b1, b2, post. split_and!; [done| |done].
      simpl. rewrite app_nil_r in Hb. subst b. by rewrite <- (assoc_L _), <- H1, app_nil_r.
    + injection Hk as <- ->. exists [], l1, k, ls. by rewrite Hb.
  - apply IH in Hk as (pre & b1 & b2 & post & -> & -> & ->).
    exists (b :: pre), b1, b2, post. split_and!; [done| |done].
    simpl. by rewrite Hl1, (assoc_L _).
Qed.

(** [get_next_key] of the key of an element returns the key of the
    element linked after it: the next of its bucket, or the first of the
    buckets that follow. *)
Lemma get_next_key_split map pre b1 b2 post elem :
  wf map →
  buckets (data map) = pre ++ (b1 ++ elem :: b2) :: post →
  hashtable_map_get_next_key map (Some (ckey map elem)) =
    match b2 ++ mjoin post with
    | [] => (ENOENT, None)
    | next_elem :: _ => (0, Some (ckey map next_elem))
    end.
Proof.
  intros Hwf Hb.
  assert (buckets (data map) !! length pre = Some (b1 ++ elem :: b2)) as Hi
    by (rewrite Hb; by apply list_lookup_middle).
  destruct (wf_bucket _ _ Hwf _ _ Hi) as [Hnd Hfa].
  assert (key_bucket map (ckey map elem) = length pre) as Hidx.
  { unfold ckey. rewrite key_hash_memcpy.
    rewrite Forall_forall in Hfa. apply Hfa.
    apply elem_of_app. right. left. }
  pose proof (wf_count _ _ Hwf) as Hc. unfold elems in Hc.
  rewrite Hb, join_app in Hc. simpl in Hc. rewrite !length_app in Hc.
  simpl in Hc.
  unfold_get_next_key.
  case_decide as H0.
  - destruct H0 as [H0|[H1 _]]; [lia|].
    assert (b2 ++ mjoin post = []) as ->; [|done].
    apply length_zero_iff_nil. rewrite length_app. lia.
  - rewrite Hidx. unfold bucket_head. rewrite Hi. simpl.
    rewrite (hash_bucket_lookup_elem_ext _ _ (elem_key elem))
      by (unfold ckey, memcpy; apply take_idemp).
    rewrite (hash_bucket_lookup_elem_NoDup _ _ (length b1) elem);
      [|done|by apply list_lookup_middle].
    replace (S (length b1)) with (length (b1 ++ [elem]) + 0)%nat
      by (rewrite length_app; simpl; lia).
    rewrite (cons_middle elem b1 b2), (assoc_L _), lookup_app_r by lia.
    replace (length (b1 ++ [elem]) + 0 - length (b1 ++ [elem]))%nat with 0%nat by lia.
    destruct b2 as [|next_elem b2]; simpl; [|done].
    assert (Z.land (key_hash map (ckey map elem)) (u32 (nbuckets (data map) - 1))
            = Z.of_nat (length pre)) as ->.
    { rewrite <- Hidx. unfold hashtable_map_get_bucket.
      pose proof (get_bucket_bound (data map) (key_hash map (ckey map elem))
                    (wf_nbuckets _ _ Hwf)) as Hbd.
      unfold_key_hash. rewrite u32_idemp in *. lia. }
    replace (Z.of_nat (length pre) + 1) with (Z.of_nat (S (length pre))) by lia.
    rewrite get_first_key_from_drop by done.
    rewrite Hb, (cons_middle _ pre post), (assoc_L _).
    rewrite drop_app_length'; [done|]. rewrite length_app. simpl. lia.
Qed.

Lemma get_next_key_elems map l1 l2 elem :
  wf map →
  elems map = l1 ++ elem :: l2 →
  hashtable_map_get_next_key map (Some (ckey map elem)) =
    match l2 with
    | [] => (ENOENT, None)
    | next_elem :: _ => (0, Some (ckey map next_elem))
    end.
Proof.
  intros Hwf (pre & b1 & b2 & post & Hb & _ & ->)%join_split.
  by apply (get_next_key_split map pre b1).
Qed.

(** Fed with the key of an element, the enumeration yields the keys of
    the elements linked after it, in order. *)
Lemma enumerate_from map l2 : ∀ l1 elem (n : nat),
  wf map →
  elems map = l1 ++ elem :: l2 →
  (length l2 < n)%nat →
  enumerate map n (Some (ckey map elem)) = Some (ckey map <$> l2).
Proof.
  induction l2 as [|next_elem l2 IH]; intros l1 elem n Hwf He Hn;
    (destruct n as [|n]; [simpl in Hn; lia|]); simpl;
    rewrite (get_next_key_elems map l1 _ elem) by done; [done|].
  simpl. rewrite ?decide_True by done.
  rewrite (IH (l1 ++ [elem]) next_elem n); [done..| |simpl in Hn; lia].
  by rewrite <- (assoc_L _).
Qed.

(** C5: on a map that is not written meanwhile, the enumeration from
    the NULL key, with at least one call more than there are elements,
    ends with a failure and yields the keys linked in the table, each
    once; these are the keys [lookup] finds. *)
Theorem enumerate_all_keys map (n : nat) :
  wf map →
  (Z.to_nat (count (data map)) < n)%nat →
  enumerate map n None = Some (all_keys map) ∧
  NoDup (all_keys map) ∧
  (∀ key, is_Some (hashtable_map_lookup_elem map key) ↔
          memcpy key (key_size map) ∈ all_keys map).
Proof.
  intros Hwf Hn. split_and!;
    [|by apply all_keys_NoDup|intros; by apply lookup_elem_all_keys].
  rewrite (wf_count _ _ Hwf), Nat2Z.id in Hn.
  destruct n as [|n]; [lia|]. simpl. rewrite get_next_key_None by done.
  unfold all_keys. destruct (elems map) as [|elem l] eqn:He; [done|].
  simpl. rewrite ?decide_True by done.
  rewrite (enumerate_from map l [] elem n); [done..|simpl in Hn; lia].
Qed.


(** ** init *)

Variable sizeof_hash_elem : Z.
Variable size_t_bits : Z.
Variable ebpf_roundup_pow_of_two : Z → Z.

Local Abbreviation hashtable_map_init :=
  (hashtable_map_init sizeof_hash_elem size_t_bits ebpf_roundup_pow_of_two).
Local Abbreviation size_t := (size_t size_t_bits).

(** When the allocations succeed, and [ebpf_roundup_pow_of_two] gives a
    power of two that a [uint32_t] holds, [init] gives an empty map that
    meets the invariants. *)
Lemma init_wf map ksize vsize max_ent flags env :
  0 ≤ max_entries map < 2 ^ 32 →
  (∃ p, 0 ≤ p < 32 ∧ ebpf_roundup_pow_of_two max_ent = 2 ^ p) →
  (hashtable_map_init map ksize vsize max_ent flags env).1 = 0 →
  wf (hashtable_map_init map ksize vsize max_ent flags env).2 ∧
  elems (hashtable_map_init map ksize vsize max_ent flags env).2 = [].
Proof.
  intros Hmax (p & Hp & Hpow) H0. unfold_init.
  pose proof (pow2_bounds p Hp) as Hb.
  rewrite Hpow, (u32_small (2 ^ p)) in * by lia.
  repeat case_match; simpl in H0; try done.
  assert (mjoin (replicate (Z.to_nat (2 ^ p)) ([] : list hash_elem)) = []) as Hnil
    by (apply join_nil_2, Forall_replicate; done).
  split; [|done].
  split; simpl; unfold elems; simpl; rewrite ?Hnil; simpl.
  - done.
  - by exists p.
  - by rewrite length_replicate.
  - done.
  - lia.
  - intros i head [-> _]%lookup_replicate. split; constructor.
Qed.

(** Where the sum of the two sizes does not wrap and [size_t] has 64
    bits, the check of [init] is exact. *)
Lemma init_size_check_exact (ksize vsize : Z) :
  size_t_bits = 64 →
  0 ≤ sizeof_hash_elem < 2 ^ 32 →
  0 ≤ ksize → 0 ≤ vsize → ksize + vsize < 2 ^ 32 →
  size_t (u32 (ksize + vsize) + sizeof_hash_elem) > UINT32_MAX ↔
  ksize + vsize + sizeof_hash_elem > UINT32_MAX.
Proof.
  intros Hbits Hs Hk Hv Hsum. unfold_size_t. rewrite Hbits.
  rewrite u32_small by lia. rewrite Z.mod_small; [done|]. lia.
Qed.

(** C7: at [key_size = value_size = 2^31] the exact sum of the sizes
    and of the header does not fit 32 bits, but the sum of the two
    [uint32_t] wraps to 0 before the header is added: the check passes,
    [init] succeeds when the allocator does, and the size of an element
    is that of the header alone. *)
Theorem init_size_check_wraps map max_ent flags :
  0 ≤ sizeof_hash_elem < 2 ^ 32 →
  32 ≤ size_t_bits →
  let r := hashtable_map_init map (2 ^ 31) (2 ^ 31) max_ent flags
             (mk_init_env true true 0 0) in
  r.1 = 0 ∧ r.1 ≠ E2BIG ∧
  elem_size (data r.2) = sizeof_hash_elem ∧
  2 ^ 31 + 2 ^ 31 + sizeof_hash_elem > UINT32_MAX.
Proof.
  intros Hs Hbits r. subst r. unfold_init.
  assert (u32 (2 ^ 31 + 2 ^ 31) = 0) as -> by done.
  assert (size_t (0 + sizeof_hash_elem) = sizeof_hash_elem) as Hst.
  { unfold_size_t. apply Z.mod_small. split; [lia|].
    apply Z.lt_le_trans with (2 ^ 32); [lia|]. apply Z.pow_le_mono_r; lia. }
  rewrite !Hst. unfold UINT32_MAX.
  rewrite decide_False by lia. simpl.
  rewrite (u32_small sizeof_hash_elem) by done.
  split_and!; [done|done|done|lia].
Qed.

End Properties.

(** * The properties at work on the sample map *)

Lemma sample_empty_wf : wf sum_hash sample_empty.
Proof.
  apply (init_wf sum_hash 40 64 roundup_pow_of_two sample_header 1 1 3 0
           (mk_init_env true true 0 0)).
  - done.
  - by exists 2.
  - reflexivity.
Qed.

Lemma sample_one_wf : wf sum_hash sample_one.
Proof. apply run_wf, sample_empty_wf. Qed.

Lemma sample_full_wf : wf sum_hash sample_full.
Proof. apply run_wf, sample_empty_wf. Qed.

Example sample_full_buckets :
  buckets (data sample_full) =
    [ [];
      [mk_hash_elem false 1 key5 value5; mk_hash_elem false 1 key1 value1];
      [mk_hash_elem false 1 key2 value2];
      [] ].
Proof. reflexivity. Qed.

(** The value written under key 1 is still returned after an update of
    key 2, a delete of key 9, a lookup and an enumeration step. *)
Lemma lookup_after_update_witness :
  hashtable_map_lookup_elem sum_hash
    (run sum_hash sample_NOEXIST sample_EXIST
       (hashtable_map_update_elem sum_hash sample_NOEXIST sample_EXIST
          sample_empty key1 value1 0 sample_blk).2
       [Update key2 value2 0 sample_blk; Delete key9; Lookup key1; GetNextKey None])
    key1 = Some value1.
Proof.
  apply (lookup_after_update sum_hash sample_NOEXIST sample_EXIST
           sample_empty key1 value1 0 sample_blk).
  - apply sample_empty_wf.
  - reflexivity.
  - reflexivity.
  - simpl. split_and!; try done; intros H; vm_compute in H;
      [by destruct H|done..].
Defined.

(** In the map that holds key 1 only, the errors of the two flags
    follow the presence of key 1. *)
Lemma update_flags_errors_witness :
  count (data sample_one) ≠ max_entries sample_one ∧
  flag_errors_follow_presence sum_hash sample_NOEXIST sample_EXIST
    sample_one key1 value2 sample_blk.
Proof.
  assert (count (data sample_one) ≠ max_entries sample_one) as Hc
    by (vm_compute; discriminate).
  split; [done|].
  apply (update_flags_errors sum_hash sample_NOEXIST sample_EXIST
           sample_one key1 value2 sample_blk); try done.
  apply sample_one_wf.
Defined.

(** In the full map key 1 is there, and an update of it with
    [EBPF_NOEXIST] fails with EBUSY, not with EEXIST. *)
Lemma update_flags_errors_full_counterexample :
  wf sum_hash sample_full ∧
  ¬ flag_errors_follow_presence sum_hash sample_NOEXIST sample_EXIST
      sample_full key1 value2 sample_blk.
Proof.
  split; [apply sample_full_wf|].
  intros [[_ H] _].
  assert ((hashtable_map_update_elem sum_hash sample_NOEXIST sample_EXIST
             sample_full key1 value2 sample_NOEXIST sample_blk).1 = EBUSY)
    as Hb by reflexivity.
  assert (EBUSY = EEXIST) as Habs; [|vm_compute in Habs; discriminate Habs].
  rewrite <- Hb. apply H. by exists value1.
Qed.

(** The full map refuses a fourth key, and keeps its three. *)
Lemma full_map_update_fails_witness :
  hashtable_map_update_elem sum_hash sample_NOEXIST sample_EXIST
    sample_full key9 value1 0 sample_blk = (EBUSY, sample_full) ∧
  Z.of_nat (length (all_keys sample_full)) = max_entries sample_full.
Proof.
  destruct (full_map_update_fails sum_hash sample_NOEXIST sample_EXIST
              sample_full key9 value1 0 sample_blk sample_full_wf eq_refl)
    as (H1 & H2 & _).
  by split.
Defined.

(** Key 1 is gone from the full map after its delete. *)
Lemma delete_then_lookup_witness :
  hashtable_map_lookup_elem sum_hash
    (hashtable_map_delete_elem sum_hash sample_full key1).2 key1 = None.
Proof.
  apply (delete_then_lookup sum_hash sample_full key1 sample_full_wf).
Defined.

(** Four calls enumerate the three keys of the full map. *)
Lemma enumerate_all_keys_witness :
  enumerate sum_hash sample_full 4 None = Some [key5; key1; key2].
Proof.
  apply (enumerate_all_keys sum_hash sample_full 4 sample_full_wf).
  vm_compute. lia.
Defined.



(** With a header of 40 bytes and a [size_t] of 64 bits. *)
Lemma init_size_check_wraps_witness :
  (hashtable_map_init 40 64 roundup_pow_of_two sample_header
     (2 ^ 31) (2 ^ 31) 3 0 (mk_init_env true true 0 0)).1 = 0 ∧
  2 ^ 31 + 2 ^ 31 + 40 > UINT32_MAX.
Proof.
  destruct (init_size_check_wraps 40 64 roundup_pow_of_two sample_header 3 0)
    as (H1 & _ & _ & H2); [lia|lia|].
  by split.
Defined.



(** An update of key 5, of bucket 1, leaves bucket 2 as it was. *)
Lemma other_buckets_unchanged_witness :
  buckets (data (hashtable_map_update_elem sum_hash sample_NOEXIST sample_EXIST
                   sample_one key5 value5 0 sample_blk).2) !! 2%nat =
    buckets (data sample_one) !! 2%nat.
Proof.
  apply (other_buckets_unchanged sum_hash sample_NOEXIST sample_EXIST
           sample_one key5 value5 0 sample_blk 2).
  vm_compute. discriminate.
Defined.

(** * The map as a whole *)

Section Whole.

Variable ebpf_jenkins_hash : list byte → Z → Z → Z.
Variable EBPF_NOEXIST : Z.
Variable EBPF_EXIST : Z.

Local Abbreviation key_hash := (key_hash ebpf_jenkins_hash).
Local Abbreviation wf := (wf ebpf_jenkins_hash).
Local Abbreviation hashtable_map_lookup_elem :=
  (hashtable_map_lookup_elem ebpf_jenkins_hash).
Local Abbreviation hashtable_map_update_elem :=
  (hashtable_map_update_elem ebpf_jenkins_hash EBPF_NOEXIST EBPF_EXIST).
Local Abbreviation hashtable_map_delete_elem :=
  (hashtable_map_delete_elem ebpf_jenkins_hash).
Local Abbreviation hashtable_map_get_next_key :=
  (hashtable_map_get_next_key ebpf_jenkins_hash).
Local Abbreviation step := (step ebpf_jenkins_hash EBPF_NOEXIST EBPF_EXIST).
Local Abbreviation run := (run ebpf_jenkins_hash EBPF_NOEXIST EBPF_EXIST).
Local Abbreviation key_bucket map key :=
  (hashtable_map_get_bucket (data map) (key_hash map key)).

Implicit Types (map : ebpf_map) (key value : list byte) (elem : hash_elem).

(** ** Lookup after a write *)

Lemma memcmp_0_sym (s1 s2 : list byte) (n : nat) :
  memcmp s1 s2 n = 0 → memcmp s2 s1 n = 0.
Proof. rewrite !memcmp_0_iff. by intros ->. Qed.

(** Two keys that compare equal are looked up alike. *)
Lemma lookup_elem_ext map key key' :
  memcmp key key' (Z.to_nat (key_size map)) = 0 →
  hashtable_map_lookup_elem map key' = hashtable_map_lookup_elem map key.
Proof.
  intros Hk%memcmp_0_iff. unfold_lookup.
  rewrite (key_hash_ext ebpf_jenkins_hash map key' key) by done.
  by rewrite (hash_bucket_lookup_elem_ext _ key' key).
Qed.

Lemma update_elem_key_size map key value flags blk :
  key_size (hashtable_map_update_elem map key value flags blk).2 = key_size map.
Proof.
  by destruct (update_elem_cases ebpf_jenkins_hash EBPF_NOEXIST EBPF_EXIST
                 map key value flags blk)
    as [[_ ->]|(_ & _ & ? & ? & ? & -> & _)].
Qed.

Lemma delete_elem_key_size map key :
  key_size (hashtable_map_delete_elem map key).2 = key_size map.
Proof.
  by destruct (delete_elem_cases ebpf_jenkins_hash map key)
    as [_ [[_ ->]|(? & ? & ? & _ & -> & _)]].
Qed.

(** After a delete the key is not found. *)
Lemma lookup_elem_delete map key :
  wf map →
  hashtable_map_lookup_elem (hashtable_map_delete_elem map key).2 key = None.
Proof.
  intros Hwf.
  pose proof (delete_elem_wf ebpf_jenkins_hash map key Hwf) as Hwf'.
  pose proof (lookup_elem_bucket ebpf_jenkins_hash map key Hwf) as Hl.
  destruct (delete_elem_cases ebpf_jenkins_hash map key)
    as [H0 [[Hnone Hr]|(pos & old & hm & Hold & Hr & Hn & Hb & _)]].
  - rewrite Hr. by rewrite Hl, Hnone.
  - rewrite Hr in *.
    rewrite (lookup_elem_set ebpf_jenkins_hash map hm (key_bucket map key)
               (delete pos (bucket_head (data map) (key_bucket map key))));
      [|done..|by apply key_bucket_lt].
    rewrite decide_True by done.
    erewrite hash_bucket_lookup_elem_delete_eq; [done| |done].
    by apply (bucket_head_NoDup ebpf_jenkins_hash).
Qed.

(** X1: after an update that succeeds, a lookup returns the value
    written for every key that compares equal to the key of the update,
    and what it returned before the update for every other key. *)
Theorem lookup_update_spec map key value flags blk key' :
  wf map →
  (hashtable_map_update_elem map key value flags blk).1 = 0 →
  hashtable_map_lookup_elem
    (hashtable_map_update_elem map key value flags blk).2 key' =
  if decide (memcmp key key' (Z.to_nat (key_size map)) = 0)
  then Some (memcpy value (value_size map))
  else hashtable_map_lookup_elem map key'.
Proof.
  intros Hwf H0. case_decide as Hk.
  - rewrite (lookup_elem_ext _ key key') by by rewrite update_elem_key_size.
    by apply lookup_elem_update.
  - apply (lookup_elem_step ebpf_jenkins_hash EBPF_NOEXIST EBPF_EXIST map key'
             (Update key value flags blk) Hwf).
    simpl. tauto.
Qed.

(** X2: after a delete, a lookup finds nothing for every key that
    compares equal to the key deleted, and returns what it returned
    before the delete for every other key. *)
Theorem lookup_delete_spec map key key' :
  wf map →
  hashtable_map_lookup_elem (hashtable_map_delete_elem map key).2 key' =
  if decide (memcmp key key' (Z.to_nat (key_size map)) = 0)
  then None
  else hashtable_map_lookup_elem map key'.
Proof.
  intros Hwf. case_decide as Hk.
  - rewrite (lookup_elem_ext _ key key') by by rewrite delete_elem_key_size.
    by apply lookup_elem_delete.
  - by apply (lookup_elem_step ebpf_jenkins_hash EBPF_NOEXIST EBPF_EXIST map key'
                (Delete key) Hwf).
Qed.

(** ** The outcome of a write *)

(** The key is in the table exactly when the search of its bucket finds
    an element. *)
Lemma lookup_elem_is_Some map key :
  wf map →
  is_Some (hashtable_map_lookup_elem map key) ↔
  is_Some (hash_bucket_lookup_elem (bucket_head (data map) (key_bucket map key))
             key (key_size map)).
Proof.
  intros Hwf. rewrite (lookup_elem_bucket ebpf_jenkins_hash) by done.
  by rewrite fmap_is_Some.
Qed.

(** X3: the error of an update, in the order the code decides it: EBUSY
    when the map is full, else EEXIST when the key is there and
    [EBPF_NOEXIST] is set, else ENOENT when the key is not there and
    [EBPF_EXIST] is set, else ENOMEM when the allocator has no block,
    else success. *)
Theorem update_error_precedence map key value flags blk :
  wf map →
  (hashtable_map_update_elem map key value flags blk).1 =
  if decide (count (data map) = max_entries map) then EBUSY
  else if decide (is_Some (hashtable_map_lookup_elem map key) ∧
                  Z.land flags EBPF_NOEXIST ≠ 0) then EEXIST
  else if decide (hashtable_map_lookup_elem map key = None ∧
                  Z.land flags EBPF_EXIST ≠ 0) then ENOENT
  else if decide (blk = None) then ENOMEM
  else 0.
Proof.
  intros Hwf. rewrite (lookup_elem_bucket ebpf_jenkins_hash) by done.
  unfold_update.
  destruct (decide (count (data map) = max_entries map)); [done|].
  destruct (hash_bucket_lookup_elem _ key (key_size map)) as [[pos old]|]; simpl.
  - destruct (decide (Z.land flags EBPF_NOEXIST ≠ 0)).
    + rewrite decide_True by done. by rewrite decide_True by (split; [eauto|done]).
    + rewrite decide_False by (intros []; done).
      rewrite decide_False by tauto. by destruct blk.
  - destruct (decide (Z.land flags EBPF_EXIST ≠ 0)).
    + rewrite decide_True by done. by rewrite decide_True by done.
    + rewrite decide_False by (intros []; done).
      rewrite decide_False by tauto. by destruct blk.
Qed.

(** X4: [count] follows the keys: an update that succeeds adds one when
    the key was not there and leaves it when the key was replaced; a
    delete takes one off when the key was there and leaves it when it
    was not. *)
Theorem count_after_write map key value flags blk :
  wf map →
  ((hashtable_map_update_elem map key value flags blk).1 = 0 →
   count (data (hashtable_map_update_elem map key value flags blk).2) =
     count (data map) +
     (if decide (is_Some (hashtable_map_lookup_elem map key)) then 0 else 1)) ∧
  count (data (hashtable_map_delete_elem map key).2) =
    count (data map) -
    (if decide (is_Some (hashtable_map_lookup_elem map key)) then 1 else 0).
Proof.
  intros Hwf.
  pose proof (lookup_elem_is_Some map key Hwf) as Hs.
  pose proof (wf_count _ _ Hwf) as Hc.
  pose proof (wf_count_max _ _ Hwf) as Hle.
  pose proof (wf_max_entries _ _ Hwf) as Hm.
  split.
  - intros H0.
    destruct (update_elem_cases ebpf_jenkins_hash EBPF_NOEXIST EBPF_EXIST
                map key value flags blk)
      as [[? _]|(_ & Hfull & new & rest & hm & Hr & _ & _ & _ & _ & Hrest)]; [done|].
    rewrite Hr. simpl. destruct Hrest as [(Hnone & _ & Hcnt)|(pos & old & Hold & _ & Hcnt)];
      rewrite Hcnt.
    + rewrite decide_False by (rewrite Hs, Hnone; by intros [? ?]).
      apply u32_small. lia.
    + rewrite decide_True by (rewrite Hs, Hold; eauto). lia.
  - destruct (delete_elem_cases ebpf_jenkins_hash map key)
      as [_ [[Hnone Hr]|(pos & old & hm & Hold & Hr & _ & _ & Hcnt)]]; rewrite Hr.
    + rewrite decide_False by (rewrite Hs, Hnone; by intros [? ?]). lia.
    + rewrite decide_True by (rewrite Hs, Hold; eauto). simpl. rewrite Hcnt.
      apply hash_bucket_lookup_elem_Some in Hold as [Hpos _].
      pose proof (bucket_elem_count ebpf_jenkins_hash map _ _ old Hwf
                    (key_bucket_Some ebpf_jenkins_hash map key Hwf)
                    (list_elem_of_lookup_2 _ _ _ Hpos)).
      apply u32_small. lia.
Qed.

(** X5: the element an update replaces, or a delete unlinks, is handed
    to the epoch scheduler with its back reference set: it is the
    element that held the key, with the value a lookup returned.  When
    the key was not there the queue of the scheduler is left as it
    was. *)
Theorem retired_element map key value flags blk :
  wf map →
  let retired (calls' : list hash_elem) :=
    match hashtable_map_lookup_elem map key with
    | Some v =>
        ∃ old, calls' = epoch_calls (data map) ++ [old] ∧
               elem_hash_map old = true ∧ elem_value old = v ∧
               ckey map old = memcpy key (key_size map)
    | None => calls' = epoch_calls (data map)
    end in
  ((hashtable_map_update_elem map key value flags blk).1 = 0 →
   retired (epoch_calls (data (hashtable_map_update_elem map key value flags blk).2))) ∧
  retired (epoch_calls (data (hashtable_map_delete_elem map key).2)).
Proof.
  intros Hwf retired. subst retired. simpl.
  rewrite (lookup_elem_bucket ebpf_jenkins_hash) by done.
  split.
  - intros H0. revert H0. unfold_update.
    destruct (decide (count (data map) = max_entries map)); [done|].
    destruct (hash_bucket_lookup_elem _ key (key_size map))
      as [[pos old]|] eqn:Hold; simpl.
    + apply hash_bucket_lookup_elem_Some in Hold as [_ Hk].
      repeat case_decide; try done. destruct blk; [|done]. simpl. intros _.
      by exists (set_hash_map old).
    + repeat case_decide; try done. by destruct blk.
  - unfold_delete.
    destruct (hash_bucket_lookup_elem _ key (key_size map))
      as [[pos old]|] eqn:Hold; simpl; [|done].
    apply hash_bucket_lookup_elem_Some in Hold as [_ Hk].
    by exists (set_hash_map old).
Qed.

(** ** What every sequence of calls keeps *)

Lemma step_config map (c : call) :
  key_size (step map c) = key_size map ∧
  value_size (step map c) = value_size map ∧
  max_entries (step map c) = max_entries map ∧
  nbuckets (data (step map c)) = nbuckets (data map).
Proof.
  destruct c as [key value flags blk|key| |]; simpl; [| |done..].
  - destruct (update_elem_cases ebpf_jenkins_hash EBPF_NOEXIST EBPF_EXIST
                map key value flags blk)
      as [[_ ->]|(_ & _ & ? & ? & hm & -> & _ & _ & Hn & _)]; [done|].
    by rewrite <- Hn.
  - destruct (delete_elem_cases ebpf_jenkins_hash map key)
      as [_ [[_ ->]|(? & ? & hm & _ & -> & Hn & _)]]; [done|].
    by rewrite <- Hn.
Qed.

(** X6: every sequence of calls keeps the invariants of the data model,
    and leaves the configuration of the map and its number of buckets as
    they were. *)
Theorem calls_keep_invariants map (cs : list call) :
  wf map →
  wf (run map cs) ∧
  key_size (run map cs) = key_size map ∧
  value_size (run map cs) = value_size map ∧
  max_entries (run map cs) = max_entries map ∧
  nbuckets (data (run map cs)) = nbuckets (data map).
Proof.
  revert map. induction cs as [|c cs IH]; intros map Hwf; simpl; [done|].
  destruct (IH (step map c)) as (? & -> & -> & -> & ->);
    [by apply (step_wf ebpf_jenkins_hash)|].
  by destruct (step_config map c) as (? & ? & ? & ?).
Qed.

Lemma refcount_ok_push map (hash_map' : ebpf_map_hashtable) elem :
  refcount_ok map →
  epoch_call_count hash_map' = u32 (epoch_call_count (data map) + 1) →
  epoch_calls hash_map' = epoch_calls (data map) ++ [elem] →
  refcount_ok (set_data map hash_map').
Proof.
  unfold refcount_ok. simpl. intros Hok -> ->. rewrite Hok, length_app. simpl.
  unfold u32. rewrite Zplus_mod_idemp_l. f_equal. lia.
Qed.

Lemma step_refcount map (c : call) :
  refcount_ok map →
  Forall (λ elem, elem_hash_map elem = true) (epoch_calls (data map)) →
  refcount_ok (step map c) ∧
  Forall (λ elem, elem_hash_map elem = true) (epoch_calls (data (step map c))).
Proof.
  intros Hok Hset. destruct c as [key value flags blk|key| |]; simpl; [| |done..].
  - unfold_update. repeat case_match; try done; simpl.
    all: split; [by eapply refcount_ok_push|].
    all: apply Forall_app; split; [done|]; by constructor.
  - unfold_delete. repeat case_match; try done; simpl.
    split; [by eapply refcount_ok_push|].
    apply Forall_app. split; [done|]. by constructor.
Qed.

(** X7: over every sequence of calls the reference count stays one
    more than the number of elements handed to the epoch scheduler (as a
    [uint32_t]), and every element of its queue has its back reference
    set. *)
Theorem calls_keep_refcount map (cs : list call) :
  refcount_ok map →
  Forall (λ elem, elem_hash_map elem = true) (epoch_calls (data map)) →
  refcount_ok (run map cs) ∧
  Forall (λ elem, elem_hash_map elem = true) (epoch_calls (data (run map cs))).
Proof.
  revert map. induction cs as [|c cs IH]; intros map Hok Hset; simpl; [done|].
  destruct (step_refcount map c Hok Hset). by apply IH.
Qed.

(** X8: a delete of a key that is in the map makes room: the update
    that follows, with no flag and a block from the allocator, succeeds
    whatever its key, also when the map was full. *)
Theorem delete_frees_a_slot map key key' value blk :
  wf map →
  is_Some (hashtable_map_lookup_elem map key) →
  (hashtable_map_update_elem (hashtable_map_delete_elem map key).2
     key' value 0 (Some blk)).1 = 0.
Proof.
  intros Hwf Hs.
  pose proof (delete_elem_wf ebpf_jenkins_hash map key Hwf) as Hwf'.
  pose proof (wf_count_max _ _ Hwf) as Hle.
  pose proof (wf_max_entries _ _ Hwf) as Hm.
  assert (count (data (hashtable_map_delete_elem map key).2) ≠
          max_entries (hashtable_map_delete_elem map key).2) as Hroom.
  { apply lookup_elem_is_Some in Hs as [[pos old] Hold]; [|done].
    destruct (delete_elem_cases ebpf_jenkins_hash map key)
      as [_ [[Hnone _]|(pos' & old' & hm & _ & -> & _ & _ & Hcnt)]];
      [by rewrite Hold in Hnone|].
    simpl. rewrite Hcnt.
    apply hash_bucket_lookup_elem_Some in Hold as [Hpos _].
    pose proof (bucket_elem_count ebpf_jenkins_hash map _ _ old Hwf
                  (key_bucket_Some ebpf_jenkins_hash map key Hwf)
                  (list_elem_of_lookup_2 _ _ _ Hpos)).
    rewrite u32_small by lia. lia. }
  unfold_update. rewrite decide_False by done.
  destruct (hash_bucket_lookup_elem _ key' _) as [[pos old]|]; simpl;
    rewrite ?Z.land_0_l; by repeat case_decide.
Qed.

(** ** The successor of a key *)

Local Abbreviation absent_key_restarts := (absent_key_restarts ebpf_jenkins_hash).

(** Two keys that compare equal have the same successor. *)
Lemma get_next_key_ext map key key' :
  memcmp key key' (Z.to_nat (key_size map)) = 0 →
  hashtable_map_get_next_key map (Some key') =
  hashtable_map_get_next_key map (Some key).
Proof.
  intros Hk%memcmp_0_iff. unfold_get_next_key.
  rewrite (key_hash_ext ebpf_jenkins_hash map key' key) by done.
  rewrite (hash_bucket_lookup_elem_ext _ key' key) by done.
  assert (∀ k k' : list byte,
            count (data map) = 0 ∨ count (data map) = 1 ∧ Some k ≠ None →
            count (data map) = 0 ∨ count (data map) = 1 ∧ Some k' ≠ None) as Hd
    by (intros k k' [?|[? _]]; [by left|by right]).
  destruct (decide (count (data map) = 0 ∨ count (data map) = 1 ∧ Some key' ≠ None))
    as [H|H],
    (decide (count (data map) = 0 ∨ count (data map) = 1 ∧ Some key ≠ None))
    as [H'|H']; try done; exfalso; eauto.
Qed.

Lemma memcmp_ckey map elem :
  memcmp (ckey map elem) (elem_key elem) (Z.to_nat (key_size map)) = 0.
Proof. unfold ckey. apply memcmp_memcpy_l, memcmp_refl. Qed.

(** X9: [get_next_key] of a key that is in the map returns the key of
    the element linked after it, in the order of the buckets and, inside
    a bucket, from the head of its list; it fails with ENOENT when the
    key is that of the last element. *)
Theorem get_next_key_successor map key l1 l2 elem :
  wf map →
  elems map = l1 ++ elem :: l2 →
  memcmp (elem_key elem) key (Z.to_nat (key_size map)) = 0 →
  hashtable_map_get_next_key map (Some key) =
    match l2 with
    | [] => (ENOENT, None)
    | next_elem :: _ => (0, Some (ckey map next_elem))
    end.
Proof.
  intros Hwf He Hk.
  rewrite (get_next_key_ext map (elem_key elem) key) by done.
  rewrite (get_next_key_ext map (ckey map elem) (elem_key elem))
    by apply memcmp_ckey.
  by apply (get_next_key_elems ebpf_jenkins_hash map l1).
Qed.

(** X10: [get_next_key] either fails with ENOENT and writes nothing, or
    succeeds and writes a key that is in the map; that key is never the
    key it was given. *)
Theorem get_next_key_result map (key : option (list byte)) :
  wf map →
  hashtable_map_get_next_key map key = (ENOENT, None) ∨
  ∃ next_key,
    hashtable_map_get_next_key map key = (0, Some next_key) ∧
    next_key ∈ all_keys map ∧
    ∀ key', key = Some key' → next_key ≠ memcpy key' (key_size map).
Proof.
  intros Hwf.
  assert (∀ e l, elems map = e :: l → ckey map e ∈ all_keys map) as Hhead.
  { intros e l He. unfold all_keys. rewrite He. left. }
  destruct key as [key'|].
  - destruct (hashtable_map_lookup_elem map key') as [v|] eqn:Hl.
    + assert (memcpy key' (key_size map) ∈ all_keys map) as Hin
        by (apply (lookup_elem_all_keys ebpf_jenkins_hash); eauto).
      apply list_elem_of_fmap in Hin as (e & Hk & Hin).
      apply list_elem_of_split in Hin as (l1 & l2 & He).
      assert (memcmp (elem_key e) key' (Z.to_nat (key_size map)) = 0) as Hm
        by (by apply memcmp_0_iff).
      rewrite (get_next_key_ext map (ckey map e) key')
        by (unfold ckey; by apply memcmp_memcpy_l).
      rewrite (get_next_key_elems ebpf_jenkins_hash map l1 l2 e) by done.
      destruct l2 as [|next l2]; [by left|right].
      exists (ckey map next). split_and!; [done| |].
      * unfold all_keys. rewrite He, fmap_app. apply elem_of_app. right. right. left.
      * intros ? [= <-]. rewrite Hk.
        pose proof (all_keys_NoDup ebpf_jenkins_hash map Hwf) as Hnd.
        unfold all_keys in Hnd. rewrite He, fmap_app in Hnd.
        apply NoDup_app in Hnd as (_ & _ & Hnd). simpl in Hnd.
        apply NoDup_cons in Hnd as [Hnd _]. intros Heq. apply Hnd.
        rewrite <- Heq. left.
    + assert (memcpy key' (key_size map) ∉ all_keys map) as Hnin.
      { intros [? Hs]%(lookup_elem_all_keys ebpf_jenkins_hash); [|done]. congruence. }
      rewrite (lookup_elem_bucket ebpf_jenkins_hash) in Hl by done.
      apply fmap_None in Hl. unfold_get_next_key. rewrite Hl.
      case_decide; [by left|].
      rewrite (get_first_key_from_0 ebpf_jenkins_hash) by done.
      destruct (elems map) as [|e l] eqn:He; [by left|right].
      exists (ckey map e). split_and!; [done|by eapply Hhead|].
      intros ? [= <-] Heq. apply Hnin. rewrite <- Heq. by eapply Hhead.
  - rewrite (get_next_key_None ebpf_jenkins_hash) by done.
    destruct (elems map) as [|e l] eqn:He; [by left|right].
    exists (ckey map e). split_and!; [done|by eapply Hhead|done].
Qed.

(** ** Teardown *)

Local Abbreviation pending st := (epoch_calls (data (mm_map st))).
Local Abbreviation refcount st := (epoch_call_count (data (mm_map st))).

Lemma ebpf_refcount_release_spec (n : Z) :
  1 ≤ n < 2 ^ 32 →
  ebpf_refcount_release n = (n - 1, if decide (n = 1) then 1 else 0).
Proof.
  intros Hn. unfold ebpf_refcount_release. cbv zeta.
  rewrite u32_small by lia.
  destruct (decide (n = 1));
    [rewrite decide_True by lia|rewrite decide_False by lia]; done.
Qed.

(** One event of a schedule keeps the account of the reference count,
    finds the map not released, and releases it when it is the last. *)
Lemma teardown_step_inv (d : bool) st (ev : teardown_event) :
  refcount st = (if d then 1 else 0) + Z.of_nat (length (pending st)) →
  refcount st < 2 ^ 32 →
  mm_released st = (if decide (d = false ∧ pending st = []) then 1 else 0)%nat →
  well_scheduled d (length (pending st)) [ev] →
  let d' := match ev with Deinit => false | EpochCallback _ => d end in
  let st' := teardown_step st ev in
  mm_released st = 0%nat ∧
  refcount st' = (if d' then 1 else 0) + Z.of_nat (length (pending st')) ∧
  refcount st' < 2 ^ 32 ∧
  mm_released st' = (if decide (d' = false ∧ pending st' = []) then 1 else 0)%nat ∧
  length (pending st') =
    match ev with
    | Deinit => length (pending st)
    | EpochCallback _ => (length (pending st) - 1)%nat
    end ∧
  mm_free st' ++ pending st' ≡ₚ mm_free st ++ pending st.
Proof.
  intros Hrc Hlt Hrel Hev d' st'. subst d' st'.
  destruct ev as [|ec]; simpl in *.
  - destruct Hev as [-> _]. rewrite decide_False in Hrel by (by intros [? _]).
    unfold hashtable_map_deinit. rewrite ebpf_refcount_release_spec by lia.
    destruct (decide (refcount st = 1)) as [H1|H1]; simpl.
    + assert (pending st = []) as Hp by (apply length_zero_iff_nil; lia).
      rewrite Hp in *. rewrite decide_True by done.
      split_and!; try done; simpl in *; lia.
    + rewrite decide_False.
      * split_and!; try done; lia.
      * intros [_ Hp]. rewrite Hp in Hrc. simpl in Hrc. lia.
  - destruct Hev as [Hec _].
    destruct (lookup_lt_is_Some_2 (pending st) ec Hec) as [elem Helem].
    assert (pending st ≠ []) as Hne by (intros Hp; by rewrite Hp in Helem).
    rewrite decide_False in Hrel by tauto.
    pose proof (length_delete (pending st) ec (mk_is_Some _ _ Helem)) as Hlen.
    assert (1 ≤ refcount st) as Hge by (destruct d; lia).
    unfold release_hash_map_elem. rewrite Helem.
    rewrite ebpf_refcount_release_spec by lia.
    assert (mm_free st ++ [elem] ++ delete ec (pending st) ≡ₚ mm_free st ++ pending st)
      as Hperm by (by rewrite <- (delete_Permutation _ _ _ Helem)).
    rewrite (assoc_L _) in Hperm.
    destruct (decide (refcount st = 1)) as [H1|H1]; simpl.
    + assert (d = false ∧ delete ec (pending st) = []) as [-> Hnil].
      { destruct d; [lia|]. split; [done|]. apply length_zero_iff_nil. lia. }
      rewrite Hnil in *. rewrite decide_True by done.
      split_and!; try done; simpl in *; lia.
    + rewrite decide_False.
      * split_and!; try done; destruct d; lia.
      * intros [-> Hnil]. rewrite Hnil in Hlen. simpl in Hlen. lia.
Qed.

Lemma teardown_inv (evs : list teardown_event) : ∀ (d : bool) st,
  refcount st = (if d then 1 else 0) + Z.of_nat (length (pending st)) →
  refcount st < 2 ^ 32 →
  mm_released st = (if decide (d = false ∧ pending st = []) then 1 else 0)%nat →
  well_scheduled d (length (pending st)) evs →
  (∀ evs1 ev evs2, evs = evs1 ++ ev :: evs2 →
     mm_released (teardown st evs1) = 0%nat) ∧
  mm_released (teardown st evs) =
    (if decide ((d = false ∨ Deinit ∈ evs) ∧ pending (teardown st evs) = [])
     then 1 else 0)%nat ∧
  mm_free (teardown st evs) ++ pending (teardown st evs) ≡ₚ
    mm_free st ++ pending st.
Proof.
  induction evs as [|ev evs IH]; intros d st Hrc Hlt Hrel Hev; simpl.
  - split_and!; [by intros [] ? ?|..|done].
    rewrite Hrel. apply decide_ext. split; [tauto|].
    intros [[?|?%elem_of_nil] ?]; done.
  - assert (well_scheduled d (length (pending st)) [ev]) as Hev1
      by (destruct ev; simpl in *; tauto).
    destruct (teardown_step_inv d st ev Hrc Hlt Hrel Hev1)
      as (H0 & Hrc' & Hlt' & Hrel' & Hlen & Hperm).
    destruct (IH _ (teardown_step st ev) Hrc' Hlt' Hrel') as (Hpre & Hfin & Hperm').
    { rewrite Hlen. destruct ev; simpl in *; tauto. }
    split_and!.
    + intros [|ev1 evs1] ev' evs2 Heq; simpl; [done|].
      injection Heq as <- Heq. by eapply Hpre.
    + rewrite Hfin. apply decide_ext.
      destruct ev; rewrite elem_of_cons; intuition (auto; discriminate).
    + by rewrite Hperm'.
Qed.

(** X11: a map in use, with a reference count of one more than the
    elements whose callback is pending, is released once and not
    before its time.  Over every schedule of [deinit] (once at most) and
    of the callbacks of pending elements, no event finds the map
    released; at the end the map has been released, once, exactly when
    [deinit] was called and no callback is pending any more; and every
    element that was pending is either given back to the allocator,
    once, or still pending. *)
Theorem teardown_releases_once st (evs : list teardown_event) :
  mm_released st = 0%nat →
  refcount st = 1 + Z.of_nat (length (pending st)) →
  refcount st < 2 ^ 32 →
  well_scheduled true (length (pending st)) evs →
  (∀ evs1 ev evs2, evs = evs1 ++ ev :: evs2 →
     mm_released (teardown st evs1) = 0%nat) ∧
  mm_released (teardown st evs) =
    (if decide (Deinit ∈ evs ∧ pending (teardown st evs) = []) then 1 else 0)%nat ∧
  mm_free (teardown st evs) ++ pending (teardown st evs) ≡ₚ
    mm_free st ++ pending st.
Proof.
  intros Hrel Hrc Hlt Hev.
  destruct (teardown_inv evs true st) as (Hpre & Hfin & Hperm); try done.
  split_and!; [done| |done].
  rewrite Hfin. apply decide_ext. intuition discriminate.
Qed.

(** ** The map after init *)

Variable sizeof_hash_elem : Z.
Variable size_t_bits : Z.
Variable ebpf_roundup_pow_of_two : Z → Z.

Local Abbreviation hashtable_map_init :=
  (hashtable_map_init sizeof_hash_elem size_t_bits ebpf_roundup_pow_of_two).

(** X12: when [init] succeeds, with [ebpf_roundup_pow_of_two] giving a
    power of two that a [uint32_t] holds, the map is empty and in order:
    it meets the invariants of the data model, has the buckets the
    rounding gives, holds one reference and no pending callback; every
    lookup finds nothing and every [get_next_key] fails with ENOENT. *)
Theorem init_gives_empty_map map ksize vsize max_ent flags env :
  0 ≤ max_entries map < 2 ^ 32 →
  (∃ p, 0 ≤ p < 32 ∧ ebpf_roundup_pow_of_two max_ent = 2 ^ p) →
  (hashtable_map_init map ksize vsize max_ent flags env).1 = 0 →
  let map' := (hashtable_map_init map ksize vsize max_ent flags env).2 in
  wf map' ∧
  count (data map') = 0 ∧
  nbuckets (data map') = ebpf_roundup_pow_of_two max_ent ∧
  epoch_call_count (data map') = 1 ∧ epoch_calls (data map') = [] ∧
  percpu map' = false ∧
  (∀ key, hashtable_map_lookup_elem map' key = None) ∧
  (∀ k : option (list byte), hashtable_map_get_next_key map' k = (ENOENT, None)).
Proof.
  intros Hmax Hpow H0 map'.
  destruct (init_wf ebpf_jenkins_hash sizeof_hash_elem size_t_bits
              ebpf_roundup_pow_of_two map ksize vsize max_ent flags env Hmax Hpow H0)
    as [Hwf _].
  split; [done|]. clear Hwf. subst map'.
  destruct Hpow as (p & Hp & Hpow). pose proof (pow2_bounds p Hp).
  unfold_init. repeat case_match; simpl in *; try done.
  split_and!; try done.
  rewrite Hpow. apply u32_small. lia.
Qed.

End Whole.

(** * The map as a whole, on the sample map *)

(** After key 5 is written, key 1 still has its value. *)
Lemma lookup_update_spec_witness :
  hashtable_map_lookup_elem sum_hash
    (hashtable_map_update_elem sum_hash sample_NOEXIST sample_EXIST
       sample_one key5 value5 0 sample_blk).2 key1 = Some value1.
Proof.
  exact (lookup_update_spec sum_hash sample_NOEXIST sample_EXIST
           sample_one key5 value5 0 sample_blk key1 sample_one_wf eq_refl).
Defined.

(** After key 1 is deleted from the full map, key 5 still has its
    value. *)
Lemma lookup_delete_spec_witness :
  hashtable_map_lookup_elem sum_hash
    (hashtable_map_delete_elem sum_hash sample_full key1).2 key5 = Some value5.
Proof.
  exact (lookup_delete_spec sum_hash sample_NOEXIST sample_EXIST
           sample_full key1 key5 sample_full_wf).
Defined.

(** Key 1 is there: an update of it with [EBPF_NOEXIST] fails with
    EEXIST. *)
Lemma update_error_precedence_witness :
  (hashtable_map_update_elem sum_hash sample_NOEXIST sample_EXIST
     sample_one key1 value2 sample_NOEXIST sample_blk).1 = EEXIST.
Proof.
  exact (update_error_precedence sum_hash sample_NOEXIST sample_EXIST
           sample_one key1 value2 sample_NOEXIST sample_blk sample_one_wf).
Defined.

(** The full map counts two after the delete of key 1. *)
Lemma count_after_write_witness :
  count (data (hashtable_map_delete_elem sum_hash sample_full key1).2) = 2.
Proof.
  exact (proj2 (count_after_write sum_hash sample_NOEXIST sample_EXIST
                  sample_full key1 value1 0 sample_blk sample_full_wf)).
Defined.

(** The delete of key 1 hands the element of key 1 to the scheduler. *)
Lemma retired_element_witness :
  ∃ old,
    epoch_calls (data (hashtable_map_delete_elem sum_hash sample_full key1).2) =
      epoch_calls (data sample_full) ++ [old] ∧
    elem_hash_map old = true ∧ elem_value old = value1 ∧
    ckey sample_full old = memcpy key1 (key_size sample_full).
Proof.
  exact (proj2 (retired_element sum_hash sample_NOEXIST sample_EXIST
                  sample_full key1 value1 0 sample_blk sample_full_wf)).
Defined.

(** The invariants hold after a write, a replacement, a delete of a key
    that is not there and a refused update. *)
Lemma calls_keep_invariants_witness :
  wf sum_hash
    (run sum_hash sample_NOEXIST sample_EXIST sample_one
       [Update key5 value5 0 sample_blk; Update key1 value2 0 sample_blk;
        Delete key9; Update key2 value2 sample_EXIST sample_blk]).
Proof.
  apply (calls_keep_invariants sum_hash sample_NOEXIST sample_EXIST
           sample_one _ sample_one_wf).
Defined.

(** Two elements are pending after key 1 was replaced and deleted, and
    the map holds three references. *)
Lemma calls_keep_refcount_witness :
  refcount_ok sample_retired ∧ epoch_call_count (data sample_retired) = 3.
Proof.
  split; [|reflexivity].
  apply (calls_keep_refcount sum_hash sample_NOEXIST sample_EXIST sample_empty
           [Update key1 value1 0 sample_blk; Update key1 value2 0 sample_blk;
            Delete key1]).
  - reflexivity.
  - constructor.
Defined.

(** The full map takes key 9 once key 1 is deleted. *)
Lemma delete_frees_a_slot_witness :
  (hashtable_map_update_elem sum_hash sample_NOEXIST sample_EXIST
     (hashtable_map_delete_elem sum_hash sample_full key1).2
     key9 value1 0 sample_blk).1 = 0.
Proof.
  apply (delete_frees_a_slot sum_hash sample_NOEXIST sample_EXIST
           sample_full key1 key9 value1 (mk_hash_elem false 0 [] [])
           sample_full_wf).
  by exists value1.
Defined.

(** In the full map key 1 comes after key 5, in the same bucket. *)
Lemma get_next_key_successor_witness :
  hashtable_map_get_next_key sum_hash sample_full (Some key5) = (0, Some key1).
Proof.
  exact (get_next_key_successor sum_hash sample_full key5 []
           [mk_hash_elem false 1 key1 value1; mk_hash_elem false 1 key2 value2]
           (mk_hash_elem false 1 key5 value5) sample_full_wf eq_refl eq_refl).
Defined.

(** The successor of key 1 in the full map is a key of the map. *)
Lemma get_next_key_result_witness :
  hashtable_map_get_next_key sum_hash sample_full (Some key1) = (ENOENT, None) ∨
  ∃ next_key,
    hashtable_map_get_next_key sum_hash sample_full (Some key1) = (0, Some next_key) ∧
    next_key ∈ all_keys sample_full ∧
    ∀ key', Some key1 = Some key' → next_key ≠ memcpy key' (key_size sample_full).
Proof.
  exact (get_next_key_result sum_hash sample_full (Some key1) sample_full_wf).
Defined.

(** With two callbacks pending, the map is released by the second
    callback, after [deinit]. *)
Lemma teardown_releases_once_witness :
  mm_released (teardown sample_memory [EpochCallback 1; Deinit]) = 0%nat ∧
  mm_released (teardown sample_memory [EpochCallback 1; Deinit; EpochCallback 0])
    = 1%nat.
Proof.
  destruct (teardown_releases_once sample_memory
              [EpochCallback 1; Deinit; EpochCallback 0]) as (Hpre & Hfin & _).
  - reflexivity.
  - reflexivity.
  - reflexivity.
  - simpl. lia.
  - split; [|by rewrite Hfin].
    by apply (Hpre [EpochCallback 1; Deinit] (EpochCallback 0) []).
Defined.

(** The sample map after [init]. *)
Lemma init_gives_empty_map_witness :
  wf sum_hash sample_empty ∧ nbuckets (data sample_empty) = 4.
Proof.
  destruct (init_gives_empty_map sum_hash 40 64 roundup_pow_of_two
              sample_header 1 1 3 0 (mk_init_env true true 0 0))
    as (Hwf & _ & Hn & _).
  - done.
  - by exists 2.
  - reflexivity.
  - by split.
Defined.
